(** * GA_AES_Project: the parameterised AES-128 key schedule and the genetic
      optimiser that searches its parameters.

    The development embeds two source files:
    - [aes_custom.py]   (class [CustomAES]: [rot_word], [sub_word],
                         [custom_key_expansion], [encrypt]);
    - [ga_optimizer.py] (classes [KeyScheduleChromosome] and
                         [GeneticAlgorithm]).

    Python integers are modelled as [Z], loop counters and list positions as
    [nat], floats that are only compared, stored and averaged as [Q].
    Exceptions are explicit: a fallible function returns an [outcome]. *)

From Stdlib Require Import String.
From Stdlib Require Import ZArith List Lia Bool QArith Qabs Permutation.
Import ListNotations.
Open Scope Z_scope.

(** ** Python runtime: exceptions, indexing, slicing *)

Inductive exn : Type :=
| IndexError
| ValueError
| ZeroDivisionError.

Inductive outcome (A : Type) : Type :=
| Ok (a : A)
| Raise (e : exn).
Arguments Ok {A} a.
Arguments Raise {A} e.

Definition bind {A B : Type} (m : outcome A) (k : A -> outcome B) : outcome B :=
  match m with
  | Ok a => k a
  | Raise e => Raise e
  end.

Declare Scope py_scope.
Delimit Scope py_scope with py.
Notation "x <- m ;; k" := (bind m (fun x => k))
  (at level 61, m at next level, right associativity) : py_scope.
Open Scope py_scope.

(** [l[i]] for a non-negative position. *)
Definition py_get {A : Type} (l : list A) (i : nat) : outcome A :=
  match nth_error l i with
  | Some x => Ok x
  | None => Raise IndexError
  end.

(** [l[i]] for an arbitrary Python integer: a negative index counts from the
    end, anything outside [-len, len) raises [IndexError]. *)
Definition py_index {A : Type} (l : list A) (i : Z) : outcome A :=
  let n := Z.of_nat (length l) in
  let j := if i <? 0 then i + n else i in
  if (0 <=? j) && (j <? n) then py_get l (Z.to_nat j) else Raise IndexError.

(** [l[a:b]] for non-negative bounds: clipped to the list, never raises. *)
Definition py_slice {A : Type} (l : list A) (a b : nat) : list A :=
  firstn (b - a) (skipn a l).

(** [[f(x) for x in l]] where [f] may raise: the first exception wins. *)
Fixpoint comprehension {A B : Type} (f : A -> outcome B) (l : list A)
  : outcome (list B) :=
  match l with
  | [] => Ok []
  | x :: r => y <- f x ;; ys <- comprehension f r ;; Ok (y :: ys)
  end.

(** [for x in l: acc = body(acc, x)] where the body may raise. *)
Fixpoint for_each {A S : Type} (body : S -> A -> outcome S) (l : list A) (acc : S)
  : outcome S :=
  match l with
  | [] => Ok acc
  | x :: r => acc' <- body acc x ;; for_each body r acc'
  end.

Definition is_byte (b : Z) : Prop := 0 <= b < 256.
Definition is_byteb (b : Z) : bool := (0 <=? b) && (b <? 256).

(** [bytes(l)]: every element must be in [range(256)]. *)
Definition py_bytes (l : list Z) : outcome (list Z) :=
  if forallb is_byteb l then Ok l else Raise ValueError.

(** ** aes_custom.py *)

Module aes_custom.

(** [CustomAES.SBOX] *)
Definition SBOX : list Z :=
  [ 0x63; 0x7c; 0x77; 0x7b; 0xf2; 0x6b; 0x6f; 0xc5; 0x30; 0x01; 0x67; 0x2b; 0xfe; 0xd7; 0xab; 0x76;
    0xca; 0x82; 0xc9; 0x7d; 0xfa; 0x59; 0x47; 0xf0; 0xad; 0xd4; 0xa2; 0xaf; 0x9c; 0xa4; 0x72; 0xc0;
    0xb7; 0xfd; 0x93; 0x26; 0x36; 0x3f; 0xf7; 0xcc; 0x34; 0xa5; 0xe5; 0xf1; 0x71; 0xd8; 0x31; 0x15;
    0x04; 0xc7; 0x23; 0xc3; 0x18; 0x96; 0x05; 0x9a; 0x07; 0x12; 0x80; 0xe2; 0xeb; 0x27; 0xb2; 0x75;
    0x09; 0x83; 0x2c; 0x1a; 0x1b; 0x6e; 0x5a; 0xa0; 0x52; 0x3b; 0xd6; 0xb3; 0x29; 0xe3; 0x2f; 0x84;
    0x53; 0xd1; 0x00; 0xed; 0x20; 0xfc; 0xb1; 0x5b; 0x6a; 0xcb; 0xbe; 0x39; 0x4a; 0x4c; 0x58; 0xcf;
    0xd0; 0xef; 0xaa; 0xfb; 0x43; 0x4d; 0x33; 0x85; 0x45; 0xf9; 0x02; 0x7f; 0x50; 0x3c; 0x9f; 0xa8;
    0x51; 0xa3; 0x40; 0x8f; 0x92; 0x9d; 0x38; 0xf5; 0xbc; 0xb6; 0xda; 0x21; 0x10; 0xff; 0xf3; 0xd2;
    0xcd; 0x0c; 0x13; 0xec; 0x5f; 0x97; 0x44; 0x17; 0xc4; 0xa7; 0x7e; 0x3d; 0x64; 0x5d; 0x19; 0x73;
    0x60; 0x81; 0x4f; 0xdc; 0x22; 0x2a; 0x90; 0x88; 0x46; 0xee; 0xb8; 0x14; 0xde; 0x5e; 0x0b; 0xdb;
    0xe0; 0x32; 0x3a; 0x0a; 0x49; 0x06; 0x24; 0x5c; 0xc2; 0xd3; 0xac; 0x62; 0x91; 0x95; 0xe4; 0x79;
    0xe7; 0xc8; 0x37; 0x6d; 0x8d; 0xd5; 0x4e; 0xa9; 0x6c; 0x56; 0xf4; 0xea; 0x65; 0x7a; 0xae; 0x08;
    0xba; 0x78; 0x25; 0x2e; 0x1c; 0xa6; 0xb4; 0xc6; 0xe8; 0xdd; 0x74; 0x1f; 0x4b; 0xbd; 0x8b; 0x8a;
    0x70; 0x3e; 0xb5; 0x66; 0x48; 0x03; 0xf6; 0x0e; 0x61; 0x35; 0x57; 0xb9; 0x86; 0xc1; 0x1d; 0x9e;
    0xe1; 0xf8; 0x98; 0x11; 0x69; 0xd9; 0x8e; 0x94; 0x9b; 0x1e; 0x87; 0xe9; 0xce; 0x55; 0x28; 0xdf;
    0x8c; 0xa1; 0x89; 0x0d; 0xbf; 0xe6; 0x42; 0x68; 0x41; 0x99; 0x2d; 0x0f; 0xb0; 0x54; 0xbb; 0x16 ].

(** [CustomAES.RCON] *)
Definition RCON : list Z :=
  [0x01; 0x02; 0x04; 0x08; 0x10; 0x20; 0x40; 0x80; 0x1B; 0x36].

(** The instance attributes set by [CustomAES.__init__]. *)
Record CustomAES : Type := mkCustomAES {
  rotations : list Z;
  rcon_multipliers : list Z;
  key : option (list Z);
  expanded_key : option (list Z);
  encryption_times : list Q;
  decryption_times : list Q
}.

(** The [key_schedule_params] dictionary: either entry may be missing. *)
Record key_schedule_params : Type := mkParams {
  params_rotations : option (list Z);
  params_rcon_multipliers : option (list Z)
}.

Definition dict_get {A : Type} (entry : option A) (default : A) : A :=
  match entry with
  | Some v => v
  | None => default
  end.

(** [CustomAES.__init__(key_schedule_params=None)] *)
Definition init (params : option key_schedule_params) : CustomAES :=
  match params with
  | None =>
      mkCustomAES (repeat 1 10) (repeat 1 10) None None [] []
  | Some d =>
      mkCustomAES (dict_get (params_rotations d) (repeat 1 10))
                  (dict_get (params_rcon_multipliers d) (repeat 1 10))
                  None None [] []
  end.

(** [rot_word(word, positions)]: [positions % 4], then
    [word[positions:] + word[:positions]]. *)
Definition rot_word (word : list Z) (positions : Z) : list Z :=
  let positions := Z.to_nat (positions mod 4) in
  skipn positions word ++ firstn positions word.

(** [sub_word(word)]: [[SBOX[b] for b in word]]. *)
Definition sub_word (word : list Z) : outcome (list Z) :=
  comprehension (fun b => py_index SBOX b) word.

(** [params[round_num] if round_num < len(params) else 1] *)
Definition param_or_default (params : list Z) (round_num : nat) : outcome Z :=
  if (round_num <? length params)%nat then py_get params round_num else Ok 1.

(** [temp[0] ^= rcon_value] *)
Definition xor_first (temp : list Z) (rcon_value : Z) : outcome (list Z) :=
  match temp with
  | [] => Raise IndexError
  | t0 :: rest => Ok (Z.lxor t0 rcon_value :: rest)
  end.

(** The body of the [for i in range(4, 44)] loop of
    [custom_key_expansion]; [expanded] is the list being extended. *)
Definition expansion_step (self : CustomAES) (expanded : list Z) (i : nat)
  : outcome (list Z) :=
  let temp := py_slice expanded ((i - 1) * 4) (i * 4) in
  temp <-
    (if (i mod 4 =? 0)%nat then
       let round_num := (i / 4 - 1)%nat in
       rotation <- param_or_default (rotations self) round_num ;;
       let temp := rot_word temp rotation in
       temp <- sub_word temp ;;
       rcon_mult <- param_or_default (rcon_multipliers self) round_num ;;
       rcon <- py_get RCON round_num ;;
       let rcon_value := (rcon * rcon_mult) mod 256 in
       xor_first temp rcon_value
     else Ok temp) ;;
  let prev_word := py_slice expanded ((i - 4) * 4) ((i - 3) * 4) in
  new_word <-
    comprehension
      (fun j => t <- py_get temp j ;; p <- py_get prev_word j ;; Ok (Z.lxor t p))
      (seq 0 4) ;;
  Ok (expanded ++ new_word).

(** [custom_key_expansion(key)] *)
Definition custom_key_expansion (self : CustomAES) (key : list Z)
  : outcome (list Z) :=
  let key_symbols := key in
  let expanded := key_symbols in
  expanded <- for_each (expansion_step self) (seq 4 40) expanded ;;
  py_bytes expanded.

(** [encrypt] delegates the transformation to PyCryptodome.  The library is
    not part of the repository: the block cipher ([AES.new(key,
    AES.MODE_ECB).encrypt]) and the padding ([pad(_, AES.block_size)]) are
    parameters of the model, as are the two readings of
    [time.perf_counter()]. *)
Section Encrypt.

Variable AES_ECB_encrypt : list Z -> list Z -> outcome (list Z).
Variable pad : list Z -> list Z.

Definition set_key (self : CustomAES) (k : list Z) : CustomAES :=
    mkCustomAES (rotations self) (rcon_multipliers self) (Some k)
                (expanded_key self) (encryption_times self) (decryption_times self).

Definition set_expanded_key (self : CustomAES) (ek : list Z) : CustomAES :=
    mkCustomAES (rotations self) (rcon_multipliers self) (key self)
                (Some ek) (encryption_times self) (decryption_times self).

Definition log_encryption_time (self : CustomAES) (t : Q) : CustomAES :=
    mkCustomAES (rotations self) (rcon_multipliers self) (key self)
                (expanded_key self) (encryption_times self ++ [t]) (decryption_times self).

  (** [encrypt(plaintext, key)]: the result and the object afterwards. *)
Definition encrypt (self : CustomAES) (plaintext k : list Z)
             (start_time end_time : Q) : outcome (list Z) * CustomAES :=
    let self := set_key self k in
    match custom_key_expansion self k with
    | Raise e => (Raise e, self)
    | Ok ek =>
        let self := set_expanded_key self ek in
        let padded_plaintext := pad plaintext in
        match AES_ECB_encrypt k padded_plaintext with
        | Raise e => (Raise e, self)
        | Ok ciphertext =>
            let encryption_time := ((end_time - start_time) * 1000)%Q in
            (Ok ciphertext, log_encryption_time self encryption_time)
        end
    end.

End Encrypt.

(** [decrypt] mirrors [encrypt]: the library's [AES.new(key,
    AES.MODE_ECB).decrypt] and [unpad(_, AES.block_size)] are parameters of
    the model, as are the two clock readings. *)
Section Decrypt.

Variable AES_ECB_decrypt : list Z -> list Z -> outcome (list Z).
Variable unpad : list Z -> outcome (list Z).

Definition log_decryption_time (self : CustomAES) (t : Q) : CustomAES :=
  mkCustomAES (rotations self) (rcon_multipliers self) (key self)
              (expanded_key self) (encryption_times self) (decryption_times self ++ [t]).

(** [decrypt(ciphertext, key)]: the result and the object afterwards. *)
Definition decrypt (self : CustomAES) (ciphertext k : list Z)
           (start_time end_time : Q) : outcome (list Z) * CustomAES :=
  let self := set_key self k in
  match custom_key_expansion self k with
  | Raise e => (Raise e, self)
  | Ok ek =>
      let self := set_expanded_key self ek in
      match (padded <- AES_ECB_decrypt k ciphertext ;; unpad padded) with
      | Raise e => (Raise e, self)
      | Ok plaintext =>
          let decryption_time := ((end_time - start_time) * 1000)%Q in
          (Ok plaintext, log_decryption_time self decryption_time)
      end
  end.

End Decrypt.

End aes_custom.

(** ** FIPS-197, section 5.2: the standard AES-128 key expansion

    This module follows the standard, not the program: it is the reference
    the program's expansion is compared with.  The S-box is computed from
    its definition (inverse in GF(2^8), then the affine map) and the round
    constants are the powers of [x]; neither table of the program is used. *)

Module fips197.

(** Multiplication by [x] in GF(2^8) modulo [x^8 + x^4 + x^3 + x + 1]. *)
Definition xtime (b : Z) : Z :=
  let s := Z.land (Z.shiftl b 1) 0xff in
  if Z.testbit b 7 then Z.lxor s 0x1b else s.

Fixpoint gf_mul_loop (n : nat) (a b acc : Z) : Z :=
  match n with
  | O => acc
  | S n' =>
      gf_mul_loop n' (xtime a) (Z.shiftr b 1)
                  (if Z.testbit b 0 then Z.lxor acc a else acc)
  end.

Definition gf_mul (a b : Z) : Z := gf_mul_loop 8 a b 0.

Fixpoint gf_pow (a : Z) (n : nat) : Z :=
  match n with
  | O => 1
  | S n' => gf_mul a (gf_pow a n')
  end.

(** The multiplicative inverse, with 0 mapped to 0: [a^254]. *)
Definition gf_inv (a : Z) : Z := gf_pow a 254.

Definition rotl8 (b : Z) (k : Z) : Z :=
  Z.land (Z.lor (Z.shiftl b k) (Z.shiftr b (8 - k))) 0xff.

(** The affine transformation of SubBytes (section 5.1.1). *)
Definition affine (b : Z) : Z :=
  Z.lxor b (Z.lxor (rotl8 b 1) (Z.lxor (rotl8 b 2)
    (Z.lxor (rotl8 b 3) (Z.lxor (rotl8 b 4) 0x63)))).

Definition SubByte (b : Z) : Z := affine (gf_inv b).

Definition word : Type := (Z * Z * Z * Z)%type.

Definition word_bytes (w : word) : list Z :=
  let '(a0, a1, a2, a3) := w in [a0; a1; a2; a3].

Definition RotWord (w : word) : word :=
  let '(a0, a1, a2, a3) := w in (a1, a2, a3, a0).

Definition SubWord (w : word) : word :=
  let '(a0, a1, a2, a3) := w in (SubByte a0, SubByte a1, SubByte a2, SubByte a3).

Definition xor_word (u v : word) : word :=
  let '(u0, u1, u2, u3) := u in
  let '(v0, v1, v2, v3) := v in
  (Z.lxor u0 v0, Z.lxor u1 v1, Z.lxor u2 v2, Z.lxor u3 v3).

(** [Rcon[j]] is the word [x^(j-1), 0, 0, 0]. *)
Definition Rcon (j : nat) : word := (gf_pow 2 (j - 1), 0, 0, 0).

Definition Nk : nat := 4.
Definition Nb : nat := 4.
Definition Nr : nat := 10.

Definition zero_word : word := (0, 0, 0, 0).

(** [w[i]] from the words before it. *)
Definition next_word (w : list word) (i : nat) : word :=
  let temp := nth (i - 1) w zero_word in
  let temp :=
    if (i mod Nk =? 0)%nat
    then xor_word (SubWord (RotWord temp)) (Rcon (i / Nk))
    else temp in
  xor_word (nth (i - Nk) w zero_word) temp.

(** The first [Nk] words are the key. *)
Definition key_words (key : list Z) : list word :=
  map (fun i => (nth (4 * i) key 0, nth (4 * i + 1) key 0,
                 nth (4 * i + 2) key 0, nth (4 * i + 3) key 0))
      (seq 0 Nk).

Definition KeyExpansionWords (key : list Z) : list word :=
  fold_left (fun w i => w ++ [next_word w i])
            (seq Nk (Nb * (Nr + 1) - Nk)) (key_words key).

Definition flat (w : list word) : list Z := flat_map word_bytes w.

Definition KeyExpansion (key : list Z) : list Z := flat (KeyExpansionWords key).

(** The eleven round keys that FIPS-197, appendix C.1 lists for the key
    [00 01 02 ... 0f], round 0 first. *)
Definition published_expansion_00_0f : list Z :=
  [ 0x00; 0x01; 0x02; 0x03; 0x04; 0x05; 0x06; 0x07; 0x08; 0x09; 0x0a; 0x0b; 0x0c; 0x0d; 0x0e; 0x0f;
    0xd6; 0xaa; 0x74; 0xfd; 0xd2; 0xaf; 0x72; 0xfa; 0xda; 0xa6; 0x78; 0xf1; 0xd6; 0xab; 0x76; 0xfe;
    0xb6; 0x92; 0xcf; 0x0b; 0x64; 0x3d; 0xbd; 0xf1; 0xbe; 0x9b; 0xc5; 0x00; 0x68; 0x30; 0xb3; 0xfe;
    0xb6; 0xff; 0x74; 0x4e; 0xd2; 0xc2; 0xc9; 0xbf; 0x6c; 0x59; 0x0c; 0xbf; 0x04; 0x69; 0xbf; 0x41;
    0x47; 0xf7; 0xf7; 0xbc; 0x95; 0x35; 0x3e; 0x03; 0xf9; 0x6c; 0x32; 0xbc; 0xfd; 0x05; 0x8d; 0xfd;
    0x3c; 0xaa; 0xa3; 0xe8; 0xa9; 0x9f; 0x9d; 0xeb; 0x50; 0xf3; 0xaf; 0x57; 0xad; 0xf6; 0x22; 0xaa;
    0x5e; 0x39; 0x0f; 0x7d; 0xf7; 0xa6; 0x92; 0x96; 0xa7; 0x55; 0x3d; 0xc1; 0x0a; 0xa3; 0x1f; 0x6b;
    0x14; 0xf9; 0x70; 0x1a; 0xe3; 0x5f; 0xe2; 0x8c; 0x44; 0x0a; 0xdf; 0x4d; 0x4e; 0xa9; 0xc0; 0x26;
    0x47; 0x43; 0x87; 0x35; 0xa4; 0x1c; 0x65; 0xb9; 0xe0; 0x16; 0xba; 0xf4; 0xae; 0xbf; 0x7a; 0xd2;
    0x54; 0x99; 0x32; 0xd1; 0xf0; 0x85; 0x57; 0x68; 0x10; 0x93; 0xed; 0x9c; 0xbe; 0x2c; 0x97; 0x4e;
    0x13; 0x11; 0x1d; 0x7f; 0xe3; 0x94; 0x4a; 0x17; 0xf3; 0x07; 0xa7; 0x8b; 0x4d; 0x2b; 0x30; 0xc5 ].

End fips197.

(** ** ga_optimizer.py *)

Module ga_optimizer.

(** [KeyScheduleChromosome]: the two gene lists, the fitness and the
    metrics dictionary (kept as an association list). *)
Record KeyScheduleChromosome : Type := mkChromosome {
  rotations : list Z;
  rcon_multipliers : list Z;
  fitness : Q;
  metrics : list (String.string * Q)
}.

(** [GeneticAlgorithm]: the configuration set by [__init__] and the three
    attributes [evolve] updates. *)
Record GeneticAlgorithm : Type := mkGA {
  population_size : nat;
  crossover_rate : Q;
  mutation_rate : Q;
  num_generations : nat;
  elitism_count : nat;
  best_fitness_history : list Q;
  avg_fitness_history : list Q;
  best_chromosome : option KeyScheduleChromosome;
  test_key : list Z;
  w_avalanche : Q;
  w_entropy : Q;
  w_speed : Q
}.

(** [GeneticAlgorithm.__init__]; [test_key] stands for the result of
    [get_random_bytes(16)]. *)
Definition init (population_size : nat) (crossover_rate mutation_rate : Q)
           (num_generations elitism_count : nat) (test_key : list Z)
  : GeneticAlgorithm :=
  mkGA population_size crossover_rate mutation_rate num_generations
       elitism_count [] [] None test_key (4 # 10) (3 # 10) (3 # 10).

(** What one call of [evaluate_fitness] measures on the cipher: the
    avalanche statistics, the mean encryption time and the entropy of the
    expanded schedule.  They depend on random plaintexts and on the wall
    clock, so the model reads them from the environment. *)
Record measurement : Type := mkMeasurement {
  avalanche_mean : Q;
  avalanche_std : Q;
  enc_time : Q;
  entropy : Q
}.

(** The environment of a run: how many draws of Python's [random] module
    and how many fitness measurements have been consumed. *)
Record env : Type := mkEnv {
  rng_pos : nat;
  eval_pos : nat
}.

(** Computations that draw random numbers or measure, and may raise. *)
Definition R (A : Type) : Type := env -> outcome A * env.

Definition ret {A : Type} (a : A) : R A := fun e => (Ok a, e).

Definition raise {A : Type} (x : exn) : R A := fun e => (Raise x, e).

Definition rbind {A B : Type} (m : R A) (k : A -> R B) : R B :=
  fun e =>
    match m e with
    | (Ok a, e') => k a e'
    | (Raise x, e') => (Raise x, e')
    end.

Notation "x <~ m ;; k" := (rbind m (fun x => k))
  (at level 61, m at next level, right associativity) : py_scope.

(** [for x in l: acc = body(acc, x)] in [R]. *)
Fixpoint rfor {A S : Type} (body : S -> A -> R S) (l : list A) (acc : S) : R S :=
  match l with
  | [] => ret acc
  | x :: r => acc' <~ body acc x ;; rfor body r acc'
  end.

(** [[f(x) for x in l]] in [R]. *)
Fixpoint rmap {A B : Type} (f : A -> R B) (l : list A) : R (list B) :=
  match l with
  | [] => ret []
  | x :: r => y <~ f x ;; ys <~ rmap f r ;; ret (y :: ys)
  end.

Definition Qltb (a b : Q) : bool := negb (Qle_bool b a).

(** [l[i] = v] for a position inside the list. *)
Fixpoint list_set {A : Type} (l : list A) (i : nat) (v : A) : list A :=
  match l, i with
  | [], _ => []
  | _ :: r, O => v :: r
  | x :: r, S i' => x :: list_set r i' v
  end.

Fixpoint remove_nth {A : Type} (l : list A) (i : nat) : list A :=
  match l, i with
  | [], _ => []
  | _ :: r, O => r
  | x :: r, S i' => x :: remove_nth r i'
  end.

Section Run.

  (** The raw draws of the [random] module, in the order they are made, and
      the measurement taken by the [k]-th call of [evaluate_fitness]. *)
Variable tape : nat -> Z.
Variable probe : nat -> KeyScheduleChromosome -> measurement.

Definition next_draw : R Z :=
    fun e => (Ok (tape (rng_pos e)), mkEnv (S (rng_pos e)) (eval_pos e)).

  (** [random.random()]: a multiple of [2^-53] in [0, 1). *)
Definition random_random : R Q :=
    d <~ next_draw ;; ret (Qmake (d mod 2 ^ 53) (2 ^ 53)).

  (** [random.randint(a, b)] for [a <= b]: an integer of [a..b]. *)
Definition random_randint (a b : Z) : R Z :=
    d <~ next_draw ;; ret (a + d mod (b - a + 1)).

Fixpoint sample_loop {A : Type} (pool : list A) (k : nat) : R (list A) :=
    match k with
    | O => ret []
    | S k' =>
        match pool with
        | [] => ret []
        | x0 :: _ =>
            d <~ next_draw ;;
            let j := Z.to_nat (d mod Z.of_nat (length pool)) in
            rest <~ sample_loop (remove_nth pool j) k' ;;
            ret (nth j pool x0 :: rest)
        end
    end.

  (** [random.sample(population, k)]: [k] elements at distinct positions;
      [ValueError] when the population is smaller than [k]. *)
Definition random_sample {A : Type} (population : list A) (k : nat) : R (list A) :=
    if (length population <? k)%nat then raise ValueError
    else sample_loop population k.

  (** [[random.randint(1, 3) for _ in range(10)]] *)
Definition random_genes : R (list Z) :=
    rmap (fun _ => random_randint 1 3) (seq 0 10).

  (** [KeyScheduleChromosome.__init__(rotations=None, rcon_multipliers=None)] *)
Definition new_chromosome (rotations rcon_multipliers : option (list Z))
    : R KeyScheduleChromosome :=
    rot <~ match rotations with
           | None => random_genes
           | Some r => ret r
           end ;;
    rc <~ match rcon_multipliers with
          | None => random_genes
          | Some r => ret r
          end ;;
    ret (mkChromosome rot rc 0 []).

  (** [initialize_population] *)
Definition initialize_population (self : GeneticAlgorithm)
    : R (list KeyScheduleChromosome) :=
    standard <~ new_chromosome (Some (repeat 1 10)) (Some (repeat 1 10)) ;;
    let population := [standard] in
    rfor (fun population _ =>
            chromosome <~ new_chromosome None None ;;
            ret (population ++ [chromosome]))
         (seq 0 (population_size self - 1)) population.

Definition measure (c : KeyScheduleChromosome) : R measurement :=
    fun e => (Ok (probe (eval_pos e) c), mkEnv (rng_pos e) (S (eval_pos e))).

  (** [evaluate_fitness(chromosome)]: the fitness, and the chromosome with
      its [metrics] filled in.  The division [1.0 / (1.0 + enc_time * 10)]
      raises [ZeroDivisionError] when its denominator is zero; the metrics
      are assigned after it. *)
Definition evaluate_fitness (self : GeneticAlgorithm) (chromosome : KeyScheduleChromosome)
    : R (Q * KeyScheduleChromosome) :=
    m <~ measure chromosome ;;
    let avalanche_score := (1 - Qabs (avalanche_mean m - 50) / 50)%Q in
    let avalanche_score := if Qltb 0 avalanche_score then avalanche_score else 0%Q in
    let entropy_score := (entropy m / 8)%Q in
    let denominator := (1 + enc_time m * 10)%Q in
    if Qeq_bool denominator 0 then raise ZeroDivisionError
    else
      let speed_score := (1 / denominator)%Q in
      let fitness := (w_avalanche self * avalanche_score +
                      w_entropy self * entropy_score +
                      w_speed self * speed_score)%Q in
      let metrics :=
        [ ("avalanche_mean"%string, avalanche_mean m);
          ("avalanche_std"%string, avalanche_std m);
          ("encryption_time"%string, enc_time m);
          ("entropy"%string, entropy m);
          ("avalanche_score"%string, avalanche_score);
          ("entropy_score"%string, entropy_score);
          ("speed_score"%string, speed_score) ] in
      ret (fitness,
           mkChromosome (rotations chromosome) (rcon_multipliers chromosome)
                        (ga_optimizer.fitness chromosome) metrics).

Definition set_fitness (c : KeyScheduleChromosome) (f : Q) : KeyScheduleChromosome :=
    mkChromosome (rotations c) (rcon_multipliers c) f (metrics c).

  (** [chromosome.fitness = self.evaluate_fitness(chromosome)] *)
Definition evaluate (self : GeneticAlgorithm) (chromosome : KeyScheduleChromosome)
    : R KeyScheduleChromosome :=
    r <~ evaluate_fitness self chromosome ;;
    ret (set_fitness (snd r) (fst r)).

  (** [max(tournament, key=lambda x: x.fitness)]: the first maximum. *)
Definition max_by_fitness (l : list KeyScheduleChromosome)
    : R KeyScheduleChromosome :=
    match l with
    | [] => raise ValueError
    | x :: r =>
        ret (fold_left (fun best c => if Qltb (fitness best) (fitness c) then c else best)
                       r x)
    end.

  (** [selection_tournament(population, tournament_size=3)] *)
Definition selection_tournament (population : list KeyScheduleChromosome)
             (tournament_size : nat) : R KeyScheduleChromosome :=
    tournament <~ random_sample population tournament_size ;;
    max_by_fitness tournament.

  (** [crossover_single_point(parent1, parent2)]; [copy.deepcopy] of a
      value is the value. *)
Definition crossover_single_point (self : GeneticAlgorithm)
             (parent1 parent2 : KeyScheduleChromosome)
    : R (KeyScheduleChromosome * KeyScheduleChromosome) :=
    u <~ random_random ;;
    if Qltb (crossover_rate self) u then ret (parent1, parent2)
    else
      point <~ random_randint 1 9 ;;
      let point := Z.to_nat point in
      let child1_rot := firstn point (rotations parent1) ++ skipn point (rotations parent2) in
      let child1_rcon :=
        firstn point (rcon_multipliers parent1) ++ skipn point (rcon_multipliers parent2) in
      let child2_rot := firstn point (rotations parent2) ++ skipn point (rotations parent1) in
      let child2_rcon :=
        firstn point (rcon_multipliers parent2) ++ skipn point (rcon_multipliers parent1) in
      child1 <~ new_chromosome (Some child1_rot) (Some child1_rcon) ;;
      child2 <~ new_chromosome (Some child2_rot) (Some child2_rcon) ;;
      ret (child1, child2).

  (** One of the two loops of [mutate], over the positions of a gene list. *)
Definition mutate_genes (self : GeneticAlgorithm) (genes : list Z) : R (list Z) :=
    rfor (fun genes i =>
            u <~ random_random ;;
            if Qltb u (mutation_rate self)
            then g <~ random_randint 1 3 ;; ret (list_set genes i g)
            else ret genes)
         (seq 0 (length genes)) genes.

  (** [mutate(chromosome)] *)
Definition mutate (self : GeneticAlgorithm) (chromosome : KeyScheduleChromosome)
    : R KeyScheduleChromosome :=
    rot <~ mutate_genes self (rotations chromosome) ;;
    rc <~ mutate_genes self (rcon_multipliers chromosome) ;;
    ret (mkChromosome rot rc (fitness chromosome) (metrics chromosome)).

  (** [population.sort(key=lambda x: x.fitness, reverse=True)]: a stable
      sort, highest fitness first. *)
Fixpoint insert_desc (c : KeyScheduleChromosome) (l : list KeyScheduleChromosome)
    : list KeyScheduleChromosome :=
    match l with
    | [] => [c]
    | y :: r => if Qltb (fitness c) (fitness y) then y :: insert_desc c r else c :: l
    end.

Definition sort_by_fitness (l : list KeyScheduleChromosome)
    : list KeyScheduleChromosome :=
    fold_right insert_desc [] l.

  (** [np.mean([c.fitness for c in population])] *)
Definition mean_fitness (population : list KeyScheduleChromosome) : Q :=
    (fold_left Qplus (map fitness population) 0 / inject_Z (Z.of_nat (length population)))%Q.

  (** The [while len(next_generation) < self.population_size] loop.  Every
      turn appends at least one child, so [fuel] turns are enough when
      [fuel] is the number of missing chromosomes. *)
Fixpoint offspring_loop (fuel : nat) (self : GeneticAlgorithm)
           (population next_generation : list KeyScheduleChromosome)
    : R (list KeyScheduleChromosome) :=
    if (length next_generation <? population_size self)%nat then
      match fuel with
      | O => ret next_generation
      | S fuel' =>
          parent1 <~ selection_tournament population 3 ;;
          parent2 <~ selection_tournament population 3 ;;
          children <~ crossover_single_point self parent1 parent2 ;;
          child1 <~ mutate self (fst children) ;;
          child2 <~ mutate self (snd children) ;;
          let next_generation := next_generation ++ [child1] in
          let next_generation :=
            if (length next_generation <? population_size self)%nat
            then next_generation ++ [child2]
            else next_generation in
          offspring_loop fuel' self population next_generation
      end
    else ret next_generation.

  (** The part of one generation that builds and evaluates the next
      population from the sorted current one. *)
Definition next_population (self : GeneticAlgorithm)
             (population : list KeyScheduleChromosome)
    : R (list KeyScheduleChromosome) :=
    let next_generation := firstn (elitism_count self) population in
    next_generation <~
      offspring_loop (population_size self - length next_generation) self
                     population next_generation ;;
    evaluated <~ rmap (evaluate self) (skipn (elitism_count self) next_generation) ;;
    ret (firstn (elitism_count self) next_generation ++ evaluated).

Definition record_generation (self : GeneticAlgorithm) (best_fitness avg_fitness : Q)
    : GeneticAlgorithm :=
    mkGA (population_size self) (crossover_rate self) (mutation_rate self)
         (num_generations self) (elitism_count self)
         (best_fitness_history self ++ [best_fitness])
         (avg_fitness_history self ++ [avg_fitness])
         (best_chromosome self) (test_key self)
         (w_avalanche self) (w_entropy self) (w_speed self).

Definition set_best_chromosome (self : GeneticAlgorithm) (c : KeyScheduleChromosome)
    : GeneticAlgorithm :=
    mkGA (population_size self) (crossover_rate self) (mutation_rate self)
         (num_generations self) (elitism_count self)
         (best_fitness_history self) (avg_fitness_history self)
         (Some c) (test_key self)
         (w_avalanche self) (w_entropy self) (w_speed self).

  (** [if self.best_chromosome is None or best_fitness > self.best_chromosome.fitness] *)
Definition store_best (self : GeneticAlgorithm) (best_fitness : Q)
             (top : KeyScheduleChromosome) : GeneticAlgorithm :=
    match best_chromosome self with
    | None => set_best_chromosome self top
    | Some b =>
        if Qltb (fitness b) best_fitness then set_best_chromosome self top else self
    end.

  (** The [for generation in range(self.num_generations)] loop: [n] turns
      are left.  The object is returned with the result, also when a turn
      raises. *)
Fixpoint generations (n : nat) (self : GeneticAlgorithm)
           (population : list KeyScheduleChromosome) (e : env)
    : outcome (list KeyScheduleChromosome) * GeneticAlgorithm * env :=
    match n with
    | O => (Ok population, self, e)
    | S n' =>
        let population := sort_by_fitness population in
        match population with
        | [] => (Raise IndexError, self, e)
        | top :: _ =>
            let best_fitness := fitness top in
            let avg_fitness := mean_fitness population in
            let self := record_generation self best_fitness avg_fitness in
            let self := store_best self best_fitness top in
            match next_population self population e with
            | (Raise x, e') => (Raise x, self, e')
            | (Ok next_generation, e') => generations n' self next_generation e'
            end
        end
    end.

  (** [evolve()] *)
Definition evolve (self : GeneticAlgorithm) (e : env)
    : outcome KeyScheduleChromosome * GeneticAlgorithm * env :=
    match (population <~ initialize_population self ;;
           rmap (evaluate self) population) e with
    | (Raise x, e') => (Raise x, self, e')
    | (Ok population, e') =>
        match generations (num_generations self) self population e' with
        | (Raise x, self, e'') => (Raise x, self, e'')
        | (Ok population, self, e'') =>
            let population := sort_by_fitness population in
            match population with
            | [] => (Raise IndexError, self, e'')
            | top :: _ => (Ok top, set_best_chromosome self top, e'')
            end
        end
    end.

End Run.

(** [KeyScheduleChromosome.to_params()]: the dictionary handed to
    [CustomAES]. *)
Definition to_params (c : KeyScheduleChromosome) : aes_custom.key_schedule_params :=
  aes_custom.mkParams (Some (rotations c)) (Some (rcon_multipliers c)).



End ga_optimizer.

(** ** Concrete inputs *)

(** The key [00 01 02 ... 0f]. *)
Definition key_00_0f : list Z := map Z.of_nat (seq 0 16).

(** A 24-byte key, [00 01 ... 17]. *)
Definition key_24 : list Z := map Z.of_nat (seq 0 24).

(** [CustomAES({'rotations': rot, 'rcon_multipliers': rcon})] *)
Definition custom_aes (rot rcon : list Z) : aes_custom.CustomAES :=
  aes_custom.init (Some (aes_custom.mkParams (Some rot) (Some rcon))).

(** The custom parameters of the example at the end of [aes_custom.py]. *)
Definition example_aes : aes_custom.CustomAES :=
  custom_aes [1; 2; 1; 3; 1; 2; 1; 1; 2; 1] [1; 1; 2; 1; 1; 3; 1; 1; 1; 2].

(** A parameter list completed with the neutral value up to ten rounds. *)
Definition pad_neutral (params : list Z) : list Z :=
  params ++ repeat 1 (10 - length params).

Definition with_params (self : aes_custom.CustomAES) (rot rcon : list Z)
  : aes_custom.CustomAES :=
  aes_custom.mkCustomAES rot rcon (aes_custom.key self) (aes_custom.expanded_key self)
                         (aes_custom.encryption_times self)
                         (aes_custom.decryption_times self).

(** PKCS#7 padding to blocks of 16 bytes, the default of
    [Crypto.Util.Padding.pad]; used to instantiate [encrypt]. *)
Definition pkcs7_pad (data : list Z) : list Z :=
  let n := (16 - length data mod 16)%nat in
  data ++ repeat (Z.of_nat n) n.

(** A stand-in for the library's block cipher, used only to instantiate
    [encrypt] at concrete inputs: it rejects keys that are not 16 bytes
    long and masks the data with the key. *)
Definition standin_cipher (k data : list Z) : outcome (list Z) :=
  if (length k =? 16)%nat
  then Ok (map (fun b => Z.lxor b (nth 0 k 0)) data)
  else Raise ValueError.

(** The gene domain and the shape every chromosome of the engine has. *)
Definition gene (g : Z) : Prop := 1 <= g <= 3.

Definition valid_chromosome (c : ga_optimizer.KeyScheduleChromosome) : Prop :=
  length (ga_optimizer.rotations c) = 10%nat /\
  length (ga_optimizer.rcon_multipliers c) = 10%nat /\
  Forall gene (ga_optimizer.rotations c) /\
  Forall gene (ga_optimizer.rcon_multipliers c).

(** The fixed neutral baseline: every gene is 1. *)
Definition baseline : ga_optimizer.KeyScheduleChromosome :=
  ga_optimizer.mkChromosome (repeat 1 10) (repeat 1 10) 0 [].

(** A history is non-decreasing when each entry is at most the next one. *)
Definition non_decreasing (h : list Q) : Prop :=
  forall (g : nat) (a b : Q),
    nth_error h g = Some a -> nth_error h (S g) = Some b -> (a <= b)%Q.

(** Every element after the head is at most as fit as the head. *)
Inductive descending : list ga_optimizer.KeyScheduleChromosome -> Prop :=
| descending_nil : descending []
| descending_cons (c : ga_optimizer.KeyScheduleChromosome)
                  (l : list ga_optimizer.KeyScheduleChromosome) :
    Forall (fun y => (ga_optimizer.fitness y <= ga_optimizer.fitness c)%Q) l -> descending l ->
    descending (c :: l).

(** A computation of [R] that returns normally from every environment, with
    a result satisfying [P]. *)
Definition always {A : Type} (m : ga_optimizer.R A) (P : A -> Prop) : Prop :=
  forall e, exists a e', m e = (Ok a, e') /\ P a.

(** A computation of [R] whose result satisfies [P] whenever it returns
    normally. *)
Definition post {A : Type} (m : ga_optimizer.R A) (P : A -> Prop) : Prop :=
  forall e a e', m e = (Ok a, e') -> P a.

(** The measurements for which the speed score is defined: the
    denominator [1.0 + enc_time * 10] of [evaluate_fitness] is never zero.
    Every non-negative encryption time qualifies. *)
Definition speed_is_defined
           (probe : nat -> ga_optimizer.KeyScheduleChromosome -> ga_optimizer.measurement)
  : Prop :=
  forall k c, ~ (1 + ga_optimizer.enc_time (probe k c) * 10 == 0)%Q.

(** A run used in the examples: the raw draws [3, 10, 17, ...]; the first
    three measurements are taken on a fast machine (0.01 ms per
    encryption), the later ones on a loaded one (0.05 ms). *)
Definition demo_tape (i : nat) : Z := Z.of_nat (i * 7 + 3).

Definition demo_probe (k : nat) (c : ga_optimizer.KeyScheduleChromosome)
  : ga_optimizer.measurement :=
  if (k <? 3)%nat
  then ga_optimizer.mkMeasurement 50 3 (1 # 100) 7
  else ga_optimizer.mkMeasurement 50 3 (5 # 100) 7.

Definition fresh_env : ga_optimizer.env := ga_optimizer.mkEnv 0 0.

(** [GeneticAlgorithm(population_size=3, crossover_rate=0.8,
    mutation_rate=0.2, num_generations=1, elitism_count=0)] *)
Definition ga_without_elitism : ga_optimizer.GeneticAlgorithm :=
  ga_optimizer.init 3 (8 # 10) (2 # 10) 1 0 (repeat 0 16).

(** [GeneticAlgorithm(population_size=4, crossover_rate=0.8,
    mutation_rate=0.2, num_generations=3, elitism_count=1)] *)
Definition ga_with_elitism : ga_optimizer.GeneticAlgorithm :=
  ga_optimizer.init 4 (8 # 10) (2 # 10) 3 1 (repeat 0 16).

(** [crossover_rate = 0] and [crossover_rate = 1]. *)
Definition ga_rate_0 : ga_optimizer.GeneticAlgorithm :=
  ga_optimizer.init 4 0 (2 # 10) 3 1 (repeat 0 16).

Definition ga_rate_1 : ga_optimizer.GeneticAlgorithm :=
  ga_optimizer.init 4 1 (2 # 10) 3 1 (repeat 0 16).

(** A tape whose first draw makes [random.random()] return 0.0 and whose
    second draw makes [random.randint(1, 9)] return 5. *)
Definition zero_tape (i : nat) : Z :=
  match i with
  | O => 0
  | _ => 4
  end.

Definition all_twos : ga_optimizer.KeyScheduleChromosome :=
  ga_optimizer.mkChromosome (repeat 2 10) (repeat 2 10) (1 # 2) [].

Definition all_threes : ga_optimizer.KeyScheduleChromosome :=
  ga_optimizer.mkChromosome (repeat 3 10) (repeat 3 10) (1 # 4) [].

(** Measurements that get faster from one evaluation to the next. *)
Definition improving_probe (k : nat) (c : ga_optimizer.KeyScheduleChromosome)
  : ga_optimizer.measurement :=
  ga_optimizer.mkMeasurement 50 3 (1 # Pos.of_nat (10 * (k + 1))) 7.

(** The inverse of [pkcs7_pad], as [Crypto.Util.Padding.unpad] checks it:
    the length is a positive multiple of 16, the last byte [n] is in 1..16
    and the last [n] bytes all equal [n]. *)
Definition pkcs7_unpad (data : list Z) : outcome (list Z) :=
  let len := length data in
  if (len =? 0)%nat || negb (len mod 16 =? 0)%nat then Raise ValueError
  else
    let n := Z.to_nat (last data 0) in
    if (1 <=? n)%nat && (n <=? 16)%nat &&
       forallb (Z.eqb (Z.of_nat n)) (skipn (len - n) data)
    then Ok (firstn (len - n) data)
    else Raise ValueError.

(** The inverse of [standin_cipher]. *)
Definition standin_decipher (k data : list Z) : outcome (list Z) :=
  standin_cipher k data.

(** The ASCII bytes of [b"test"]. *)
Definition test_bytes : list Z := [116; 101; 115; 116].

(** The effective round constant of round [round_num] under multiplier
    [rcon_mult]: [(RCON[round_num] * rcon_mult) % 256]. *)
Definition rcon_value (round_num : nat) (rcon_mult : Z) : Z :=
  (nth round_num aes_custom.RCON 0 * rcon_mult) mod 256.

(** Two cipher objects whose parameters agree in what the expansion reads
    of them: the rotation modulo 4 and the effective round constant, in each
    of the ten rounds (a missing entry counts as 1). *)
Definition same_schedule_parameters (a b : aes_custom.CustomAES) : Prop :=
  forall round_num, (round_num < 10)%nat ->
    nth round_num (aes_custom.rotations a) 1 mod 4
    = nth round_num (aes_custom.rotations b) 1 mod 4 /\
    rcon_value round_num (nth round_num (aes_custom.rcon_multipliers a) 1)
    = rcon_value round_num (nth round_num (aes_custom.rcon_multipliers b) 1).

(** No value occurs twice in the list. *)
Fixpoint distinct (l : list Z) : bool :=
  match l with
  | [] => true
  | x :: r => negb (existsb (Z.eqb x) r) && distinct r
  end.

(** The indices [SBOX[b]] accepts: [-256 <= b < 256]. *)
Definition in_table (b : Z) : Prop := -256 <= b < 256.

(** The [i]-th four-byte word of a schedule, [l[4*i : 4*i + 4]], and the
    bytewise xor of two words. *)
Definition word_at (l : list Z) (i : nat) : list Z := py_slice l (i * 4) ((i + 1) * 4).

Definition xor_words (u v : list Z) : list Z :=
  map (fun p => Z.lxor (fst p) (snd p)) (combine u v).

(** Measurements with the encryption time [-0.1] ms, at which the
    denominator [1.0 + enc_time * 10] is zero. *)
Definition degenerate_probe (k : nat) (c : ga_optimizer.KeyScheduleChromosome)
  : ga_optimizer.measurement :=
  ga_optimizer.mkMeasurement 50 3 (-1 # 10) 7.
(** * Theorems *)

(** ** Lists and bytes *)

Section ListFacts.

Context {A : Type}.
Variable P : A -> Prop.

Lemma Forall_firstn_keeps (n : nat) (l : list A) :
    Forall P l -> Forall P (firstn n l).
  Proof.
    intros H; revert n; induction H; intros [|n]; simpl; auto.
  Qed.

Lemma Forall_skipn_keeps (n : nat) (l : list A) :
    Forall P l -> Forall P (skipn n l).
  Proof.
    intros H; revert n; induction H; intros [|n]; simpl; auto.
  Qed.

Lemma Forall_slice (l : list A) (a b : nat) :
    Forall P l -> Forall P (py_slice l a b).
  Proof.
    intros H. apply Forall_firstn_keeps, Forall_skipn_keeps, H.
  Qed.

End ListFacts.

Lemma length_slice {A : Type} (l : list A) (a b : nat) :
  (b <= length l)%nat -> length (py_slice l a b) = (b - a)%nat.
Proof.
  intros H. unfold py_slice. rewrite length_firstn, length_skipn. lia.
Qed.

Lemma length_slice_short {A : Type} (l : list A) (a b : nat) :
  (length l < b)%nat -> (length (py_slice l a b) < b - a)%nat \/ (b <= a)%nat.
Proof.
  intros H. unfold py_slice. rewrite length_firstn, length_skipn. lia.
Qed.

Lemma py_get_nth {A : Type} (l : list A) (i : nat) (d : A) :
  (i < length l)%nat -> py_get l i = Ok (nth i l d).
Proof.
  intros H. unfold py_get. rewrite (nth_error_nth' l d H). reflexivity.
Qed.

Lemma is_byteb_spec (b : Z) : is_byteb b = true <-> is_byte b.
Proof. unfold is_byteb, is_byte. lia. Qed.

Lemma forallb_is_byte (l : list Z) : Forall is_byte l -> forallb is_byteb l = true.
Proof.
  induction 1; simpl; auto.
  rewrite IHForall, andb_true_r. now apply is_byteb_spec.
Qed.

Lemma log2_byte (a : Z) : is_byte a -> Z.log2 a < 8.
Proof.
  intros [H0 H1]. destruct (Z.eq_dec a 0) as [->|Hn]; [reflexivity|].
  apply Z.log2_lt_pow2; [lia|]. change (2 ^ 8) with 256. lia.
Qed.

Lemma lxor_byte (a b : Z) : is_byte a -> is_byte b -> is_byte (Z.lxor a b).
Proof.
  intros Ha Hb.
  assert (H0 : 0 <= Z.lxor a b) by (apply Z.lxor_nonneg; unfold is_byte in *; lia).
  split; [exact H0|].
  destruct (Z.eq_dec (Z.lxor a b) 0) as [->|Hn]; [lia|].
  change 256 with (2 ^ 8).
  apply Z.log2_lt_pow2; [lia|].
  pose proof (Z.log2_lxor a b (proj1 Ha) (proj1 Hb)).
  pose proof (log2_byte a Ha). pose proof (log2_byte b Hb). lia.
Qed.

(** ** The tables *)

Lemma SBOX_length : length aes_custom.SBOX = 256%nat.
Proof. reflexivity. Qed.

Lemma SBOX_bytes : Forall is_byte aes_custom.SBOX.
Proof.
  apply Forall_forall. intros b Hb.
  apply is_byteb_spec.
  assert (H : forallb is_byteb aes_custom.SBOX = true) by (vm_compute; reflexivity).
  rewrite forallb_forall in H. auto.
Qed.

(** Inside [range(256)] the lookup [SBOX[b]] never raises. *)
Lemma SBOX_lookup (b : Z) :
  is_byte b -> py_index aes_custom.SBOX b = Ok (nth (Z.to_nat b) aes_custom.SBOX 0).
Proof.
  intros [H0 H1]. unfold py_index. rewrite SBOX_length.
  rewrite (proj2 (Z.ltb_ge b 0)) by lia.
  rewrite (proj2 (Z.leb_le 0 b)), (proj2 (Z.ltb_lt b (Z.of_nat 256))) by lia.
  simpl andb.
  apply py_get_nth. rewrite SBOX_length. lia.
Qed.

(** The program's table is the S-box of the standard. *)
Lemma SBOX_is_SubByte (b : Z) :
  is_byte b -> nth (Z.to_nat b) aes_custom.SBOX 0 = fips197.SubByte b.
Proof.
  intros [H0 H1].
  assert (H : forallb (fun n => nth n aes_custom.SBOX 0 =? fips197.SubByte (Z.of_nat n))
                      (seq 0 256) = true) by (vm_compute; reflexivity).
  rewrite forallb_forall in H.
  specialize (H (Z.to_nat b)). rewrite Z2Nat.id in H by lia.
  apply Z.eqb_eq, H, in_seq. lia.
Qed.

Lemma RCON_lookup (r : nat) :
  (r < 10)%nat ->
  py_get aes_custom.RCON r = Ok (fips197.gf_pow 2 r) /\
  (fips197.gf_pow 2 r * 1) mod 256 = fips197.gf_pow 2 r.
Proof.
  intros H.
  do 10 (destruct r as [|r]; [split; vm_compute; reflexivity|]). lia.
Qed.

Lemma py_index_raises {A : Type} (l : list A) (i : Z) (e : exn) :
  py_index l i = Raise e -> e = IndexError.
Proof.
  unfold py_index, py_get.
  destruct (_ && _); [destruct (nth_error _ _)|]; congruence.
Qed.

(** ** [custom_key_expansion]: one turn of the loop *)

Lemma param_or_default_nth (params : list Z) (r : nat) :
  aes_custom.param_or_default params r = Ok (nth r params 1).
Proof.
  unfold aes_custom.param_or_default.
  destruct (Nat.ltb_spec r (length params)) as [H|H].
  - now apply py_get_nth.
  - now rewrite nth_overflow.
Qed.

Lemma rot_word_length (w : list Z) (p : Z) :
  length (aes_custom.rot_word w p) = length w.
Proof.
  unfold aes_custom.rot_word.
  rewrite length_app, length_skipn, length_firstn. lia.
Qed.

Lemma rot_word_bytes (w : list Z) (p : Z) :
  Forall is_byte w -> Forall is_byte (aes_custom.rot_word w p).
Proof.
  intros H. unfold aes_custom.rot_word. apply Forall_app. split.
  - now apply Forall_skipn_keeps.
  - now apply Forall_firstn_keeps.
Qed.

Lemma sub_word_bytes (w : list Z) :
  Forall is_byte w ->
  aes_custom.sub_word w = Ok (map (fun b => nth (Z.to_nat b) aes_custom.SBOX 0) w).
Proof.
  unfold aes_custom.sub_word. induction 1 as [|b w Hb Hw IH]; simpl; [reflexivity|].
  rewrite (SBOX_lookup b Hb). simpl. rewrite IH. reflexivity.
Qed.

Lemma SBOX_nth_byte (n : nat) : is_byte (nth n aes_custom.SBOX 0).
Proof.
  destruct (Nat.lt_ge_cases n (length aes_custom.SBOX)) as [H|H].
  - pose proof SBOX_bytes as HB. rewrite Forall_forall in HB. apply HB, nth_In, H.
  - rewrite nth_overflow by exact H. unfold is_byte. lia.
Qed.

Lemma sub_word_result (w s : list Z) :
  aes_custom.sub_word w = Ok s -> length s = length w.
Proof.
  unfold aes_custom.sub_word. revert s.
  induction w as [|b w IH]; simpl; intros s H.
  - now inversion H.
  - destruct (py_index aes_custom.SBOX b); simpl in H; [|discriminate].
    destruct (comprehension _ w) as [ys|]; simpl in H; [|discriminate].
    inversion H. simpl. f_equal. now apply IH.
Qed.

Lemma sub_word_raises (w : list Z) (e : exn) :
  aes_custom.sub_word w = Raise e -> e = IndexError.
Proof.
  unfold aes_custom.sub_word.
  induction w as [|b w IH]; simpl; intros H; [discriminate|].
  destruct (py_index aes_custom.SBOX b) eqn:E; simpl in H.
  - destruct (comprehension _ w); simpl in H; [discriminate|].
    apply IH. congruence.
  - inversion H; subst. eapply py_index_raises, E.
Qed.

(** The comprehension that xors [temp] with [prev_word], on two words of
    four elements. *)
Lemma new_word_of_words (t0 t1 t2 t3 p0 p1 p2 p3 : Z) :
  comprehension
    (fun j => t <- py_get [t0; t1; t2; t3] j ;;
              p <- py_get [p0; p1; p2; p3] j ;; Ok (Z.lxor t p))
    (seq 0 4)
  = Ok [Z.lxor t0 p0; Z.lxor t1 p1; Z.lxor t2 p2; Z.lxor t3 p3].
Proof. reflexivity. Qed.

(** With fewer than four elements in [temp] the comprehension runs off its
    end. *)
Lemma new_word_short (temp prev : list Z) :
  (length temp < 4)%nat ->
  comprehension
    (fun j => t <- py_get temp j ;; p <- py_get prev j ;; Ok (Z.lxor t p))
    (seq 0 4)
  = Raise IndexError.
Proof.
  intros H.
  destruct temp as [|t0 [|t1 [|t2 [|t3 temp]]]]; simpl in H; try lia;
    destruct prev as [|p0 [|p1 [|p2 [|p3 prev]]]]; reflexivity.
Qed.

Ltac four_elements l H :=
  destruct l as [|? [|? [|? [|? [|? ?]]]]]; simpl in H; try discriminate H; try lia.

Lemma expansion_step_ok (self : aes_custom.CustomAES) (expanded : list Z) (i : nat) :
  (4 <= i < 44)%nat -> (4 * i <= length expanded)%nat -> Forall is_byte expanded ->
  exists w, aes_custom.expansion_step self expanded i = Ok (expanded ++ w) /\
            length w = 4%nat /\ Forall is_byte w.
Proof.
  intros Hi Hlen Hb. unfold aes_custom.expansion_step.
  pose proof (length_slice expanded ((i - 1) * 4) (i * 4) ltac:(lia)) as Lt.
  pose proof (Forall_slice is_byte expanded ((i - 1) * 4) (i * 4) Hb) as Bt.
  pose proof (length_slice expanded ((i - 4) * 4) ((i - 3) * 4) ltac:(lia)) as Lp.
  pose proof (Forall_slice is_byte expanded ((i - 4) * 4) ((i - 3) * 4) Hb) as Bp.
  set (temp := py_slice expanded ((i - 1) * 4) (i * 4)) in *.
  set (prev := py_slice expanded ((i - 4) * 4) ((i - 3) * 4)) in *.
  replace (i * 4 - (i - 1) * 4)%nat with 4%nat in Lt by lia.
  replace ((i - 3) * 4 - (i - 4) * 4)%nat with 4%nat in Lp by lia.
  assert (Ht : exists t0 t1 t2 t3,
             (if (i mod 4 =? 0)%nat
              then
                rotation <- aes_custom.param_or_default (aes_custom.rotations self) (i / 4 - 1) ;;
                temp0 <- aes_custom.sub_word (aes_custom.rot_word temp rotation) ;;
                rcon_mult <- aes_custom.param_or_default
                               (aes_custom.rcon_multipliers self) (i / 4 - 1) ;;
                rcon <- py_get aes_custom.RCON (i / 4 - 1) ;;
                aes_custom.xor_first temp0 ((rcon * rcon_mult) mod 256)
              else Ok temp) = Ok [t0; t1; t2; t3] /\ Forall is_byte [t0; t1; t2; t3]).
  { destruct (i mod 4 =? 0)%nat eqn:Hm.
    - rewrite !param_or_default_nth. cbn [bind].
      set (rotation := nth (i / 4 - 1) (aes_custom.rotations self) 1).
      pose proof (rot_word_length temp rotation) as Lr.
      pose proof (rot_word_bytes temp rotation Bt) as Br.
      rewrite (sub_word_bytes _ Br). cbn [bind].
      assert (Hr : (i / 4 - 1 < 10)%nat).
      { assert (i / 4 < 11)%nat by (apply Nat.Div0.div_lt_upper_bound; lia). lia. }
      rewrite (py_get_nth aes_custom.RCON _ 0) by exact Hr. cbn [bind].
      set (rot := aes_custom.rot_word temp rotation) in *.
      rewrite Lt in Lr. four_elements rot Lr.
      cbn [map aes_custom.xor_first]. do 4 eexists. split; [reflexivity|].
      apply Forall_cons;
        [apply lxor_byte; [apply SBOX_nth_byte | apply Z.mod_pos_bound; lia]|].
      repeat (apply Forall_cons; [apply SBOX_nth_byte|]). apply Forall_nil.
    - four_elements temp Lt. do 4 eexists. split; [reflexivity|exact Bt]. }
  destruct Ht as (t0 & t1 & t2 & t3 & -> & Bt'). cbn [bind].
  four_elements prev Lp.
  rewrite new_word_of_words. cbn [bind].
  eexists. split; [reflexivity|]. split; [reflexivity|].
  inversion Bt' as [|? ? B0 Bt1]; inversion Bt1 as [|? ? B1 Bt2];
    inversion Bt2 as [|? ? B2 Bt3]; inversion Bt3 as [|? ? B3 _]; subst.
  inversion Bp as [|? ? C0 Bp1]; inversion Bp1 as [|? ? C1 Bp2];
    inversion Bp2 as [|? ? C2 Bp3]; inversion Bp3 as [|? ? C3 _]; subst.
  repeat (apply Forall_cons; [now apply lxor_byte|]). apply Forall_nil.
Qed.

Lemma expansion_loop_ok (self : aes_custom.CustomAES) (n : nat) :
  forall (i : nat) (expanded : list Z),
    (4 <= i)%nat -> (i + n <= 44)%nat ->
    (4 * i <= length expanded)%nat -> Forall is_byte expanded ->
    exists ext, for_each (aes_custom.expansion_step self) (seq i n) expanded
                = Ok (expanded ++ ext) /\
                length ext = (4 * n)%nat /\ Forall is_byte ext.
Proof.
  induction n as [|n IH]; intros i expanded Hi Hn Hlen Hb; simpl.
  - exists []. rewrite app_nil_r. auto.
  - destruct (expansion_step_ok self expanded i) as (w & -> & Lw & Bw); try lia; auto.
    cbn [bind].
    destruct (IH (S i) (expanded ++ w)) as (ext & -> & Le & Be); try lia.
    + rewrite length_app. lia.
    + apply Forall_app. auto.
    + exists (w ++ ext). rewrite <- app_assoc. split; [reflexivity|].
      split; [rewrite length_app; lia | apply Forall_app; auto].
Qed.

(** Any key of at least 16 bytes is expanded: the key, then 160 more bytes. *)
Lemma custom_key_expansion_total (self : aes_custom.CustomAES) (key : list Z) :
  (16 <= length key)%nat -> Forall is_byte key ->
  exists ext, aes_custom.custom_key_expansion self key = Ok (key ++ ext) /\
              length ext = 160%nat /\ Forall is_byte ext.
Proof.
  intros Hlen Hb. unfold aes_custom.custom_key_expansion.
  destruct (expansion_loop_ok self 40 4 key) as (ext & -> & Le & Be); try lia; auto.
  cbn [bind]. unfold py_bytes.
  rewrite forallb_is_byte by (apply Forall_app; auto).
  exists ext. auto.
Qed.

(** ** [custom_key_expansion]: the claims *)

(** C2. For every 16-byte key and every pair of length-10 parameter lists
    the expansion returns exactly 176 bytes, the first 16 of which are the
    key. *)
Theorem expansion_has_176_bytes_and_starts_with_key
        (self : aes_custom.CustomAES) (key : list Z) :
  length key = 16%nat -> Forall is_byte key ->
  length (aes_custom.rotations self) = 10%nat ->
  length (aes_custom.rcon_multipliers self) = 10%nat ->
  exists out, aes_custom.custom_key_expansion self key = Ok out /\
              length out = 176%nat /\ py_slice out 0 16 = key.
Proof.
  intros Hlen Hb _ _.
  destruct (custom_key_expansion_total self key) as (ext & -> & Le & _); try lia; auto.
  exists (key ++ ext). split; [reflexivity|]. split.
  - rewrite length_app. lia.
  - unfold py_slice. simpl skipn. rewrite <- Hlen at 1.
    replace (length key - 0)%nat with (length key + 0)%nat by lia.
    rewrite firstn_app_2. simpl. apply app_nil_r.
Qed.

Lemma expansion_has_176_bytes_and_starts_with_key_witness :
  exists out, aes_custom.custom_key_expansion example_aes key_00_0f = Ok out /\
              length out = 176%nat /\ py_slice out 0 16 = key_00_0f.
Proof.
  apply expansion_has_176_bytes_and_starts_with_key.
  - reflexivity.
  - apply Forall_forall. intros b Hb. apply is_byteb_spec.
    assert (H : forallb is_byteb key_00_0f = true) by reflexivity.
    rewrite forallb_forall in H. auto.
  - reflexivity.
  - reflexivity.
Defined.

Lemma short_key_first_turn (self : aes_custom.CustomAES) (key : list Z) :
  (length key < 16)%nat -> aes_custom.expansion_step self key 4 = Raise IndexError.
Proof.
  intros Hlen. unfold aes_custom.expansion_step.
  change ((4 mod 4 =? 0)%nat) with true. cbv iota.
  change ((4 / 4 - 1)%nat) with 0%nat.
  change (((4 - 1) * 4)%nat) with 12%nat. change ((4 * 4)%nat) with 16%nat.
  assert (Lt : (length (py_slice key 12 16) < 4)%nat).
  { unfold py_slice. rewrite length_firstn, length_skipn. lia. }
  set (temp := py_slice key 12 16) in *.
  rewrite !param_or_default_nth. cbn [bind].
  destruct (aes_custom.sub_word _) as [s|e] eqn:E; cbn [bind].
  - apply sub_word_result in E. rewrite rot_word_length in E.
    change (py_get aes_custom.RCON 0) with (Ok 1). cbn [bind].
    destruct s as [|s0 s]; cbn [aes_custom.xor_first bind]; [reflexivity|].
    rewrite new_word_short; [reflexivity|]. simpl in *. lia.
  - apply sub_word_raises in E. now subst.
Qed.

(** C3, as the program has it.  The expansion never checks the length of
    the key.  A key shorter than 16 bytes makes the first turn of the loop
    run off the end of a slice, so the call aborts with [IndexError]; a key
    longer than 16 bytes is accepted and expanded to [len(key) + 160]
    bytes. *)
Theorem key_length_is_not_checked (self : aes_custom.CustomAES) (key : list Z) :
  ((length key < 16)%nat ->
   aes_custom.custom_key_expansion self key = Raise IndexError) /\
  ((16 < length key)%nat -> Forall is_byte key ->
   exists out, aes_custom.custom_key_expansion self key = Ok out /\
               length out = (length key + 160)%nat).
Proof.
  split.
  - intros Hlen. unfold aes_custom.custom_key_expansion.
    change (seq 4 40) with (4%nat :: seq 5 39). cbn [for_each].
    rewrite short_key_first_turn by exact Hlen. reflexivity.
  - intros Hlen Hb.
    destruct (custom_key_expansion_total self key) as (ext & -> & Le & _); try lia; auto.
    exists (key ++ ext). split; [reflexivity|]. rewrite length_app. lia.
Qed.

Lemma key_length_is_not_checked_witness :
  aes_custom.custom_key_expansion example_aes [1; 2; 3] = Raise IndexError /\
  exists out, aes_custom.custom_key_expansion example_aes key_24 = Ok out /\
              length out = (length key_24 + 160)%nat.
Proof.
  split.
  - apply (proj1 (key_length_is_not_checked example_aes [1; 2; 3])). simpl. lia.
  - apply (proj2 (key_length_is_not_checked example_aes key_24)).
    + simpl. lia.
    + apply Forall_forall. intros b Hb. apply is_byteb_spec.
      assert (H : forallb is_byteb key_24 = true) by reflexivity.
      rewrite forallb_forall in H. auto.
Defined.

(** C3, as stated, fails: a 24-byte key is not 16 bytes long, yet no error
    is raised and a schedule of 184 bytes is produced. *)
Lemma long_key_is_expanded_without_error :
  length key_24 <> 16%nat /\
  (forall e, aes_custom.custom_key_expansion (aes_custom.init None) key_24 <> Raise e) /\
  exists out, aes_custom.custom_key_expansion (aes_custom.init None) key_24 = Ok out /\
              length out = 184%nat.
Proof.
  split; [simpl; lia|].
  assert (E : exists out, aes_custom.custom_key_expansion (aes_custom.init None) key_24
                          = Ok out /\ length out = 184%nat).
  { eexists. split; vm_compute; reflexivity. }
  split; [|exact E].
  destruct E as (out & E & _). intros e. rewrite E. discriminate.
Qed.

Lemma pad_neutral_nth (params : list Z) (r : nat) :
  nth r (pad_neutral params) 1 = nth r params 1.
Proof.
  unfold pad_neutral.
  destruct (Nat.lt_ge_cases r (length params)) as [H|H].
  - now rewrite app_nth1.
  - rewrite app_nth2 by exact H. rewrite nth_repeat. now rewrite nth_overflow.
Qed.

Lemma for_each_ext {A S : Type} (f g : S -> A -> outcome S) (l : list A) :
  (forall acc x, f acc x = g acc x) ->
  forall acc, for_each f l acc = for_each g l acc.
Proof.
  intros H. induction l as [|x l IH]; intros acc; simpl; [reflexivity|].
  rewrite H. destruct (g acc x); simpl; auto.
Qed.

Lemma expansion_step_pad_neutral (self : aes_custom.CustomAES) (expanded : list Z) (i : nat) :
  aes_custom.expansion_step self expanded i =
  aes_custom.expansion_step
    (with_params self (pad_neutral (aes_custom.rotations self))
                 (pad_neutral (aes_custom.rcon_multipliers self))) expanded i.
Proof.
  unfold aes_custom.expansion_step, with_params. cbn [aes_custom.rotations aes_custom.rcon_multipliers].
  rewrite !param_or_default_nth, !pad_neutral_nth. reflexivity.
Qed.

(** C10. A round whose entry is missing from a parameter list uses the
    neutral value 1 in its place: the lookup yields 1, the expansion is the
    one obtained with the lists completed by 1 up to ten rounds, and it
    returns normally with 176 bytes. *)
Theorem missing_round_parameter_defaults_to_one
        (self : aes_custom.CustomAES) (key : list Z) :
  length key = 16%nat -> Forall is_byte key ->
  (forall round_num, (length (aes_custom.rotations self) <= round_num)%nat ->
     aes_custom.param_or_default (aes_custom.rotations self) round_num = Ok 1) /\
  (forall round_num, (length (aes_custom.rcon_multipliers self) <= round_num)%nat ->
     aes_custom.param_or_default (aes_custom.rcon_multipliers self) round_num = Ok 1) /\
  aes_custom.custom_key_expansion self key =
  aes_custom.custom_key_expansion
    (with_params self (pad_neutral (aes_custom.rotations self))
                 (pad_neutral (aes_custom.rcon_multipliers self))) key /\
  exists out, aes_custom.custom_key_expansion self key = Ok out /\
              length out = 176%nat.
Proof.
  intros Hlen Hb. repeat split.
  - intros r Hr. rewrite param_or_default_nth. now rewrite nth_overflow.
  - intros r Hr. rewrite param_or_default_nth. now rewrite nth_overflow.
  - unfold aes_custom.custom_key_expansion. f_equal.
    apply for_each_ext. intros. apply expansion_step_pad_neutral.
  - destruct (custom_key_expansion_total self key) as (ext & -> & Le & _); try lia; auto.
    exists (key ++ ext). split; [reflexivity|]. rewrite length_app. lia.
Qed.

Lemma key_00_0f_bytes : Forall is_byte key_00_0f.
Proof.
  apply Forall_forall. intros b Hb. apply is_byteb_spec.
  assert (H : forallb is_byteb key_00_0f = true) by reflexivity.
  rewrite forallb_forall in H. auto.
Qed.

Lemma missing_round_parameter_defaults_to_one_witness :
  aes_custom.custom_key_expansion (custom_aes [2; 3] []) key_00_0f =
  aes_custom.custom_key_expansion
    (custom_aes [2; 3; 1; 1; 1; 1; 1; 1; 1; 1] (repeat 1 10)) key_00_0f.
Proof.
  exact (proj1 (proj2 (proj2
    (missing_round_parameter_defaults_to_one (custom_aes [2; 3] []) key_00_0f
       eq_refl key_00_0f_bytes)))).
Defined.

(** ** The neutral parameters give the key schedule of FIPS-197 *)

Lemma slice_flat (k : nat) :
  forall w : list fips197.word,
    (k < length w)%nat ->
    py_slice (fips197.flat w) (k * 4) ((k + 1) * 4)
    = fips197.word_bytes (nth k w fips197.zero_word).
Proof.
  unfold py_slice.
  replace ((k + 1) * 4 - k * 4)%nat with 4%nat by lia.
  induction k as [|k IH]; intros [|[[[a b] c] d] w] H; simpl in H; try lia.
  - reflexivity.
  - change (skipn (S k * 4) (fips197.flat ((a, b, c, d) :: w)))
      with (skipn (k * 4) (fips197.flat w)).
    rewrite IH by lia. reflexivity.
Qed.

Lemma flat_app (u v : list fips197.word) :
  fips197.flat (u ++ v) = fips197.flat u ++ fips197.flat v.
Proof. unfold fips197.flat. apply flat_map_app. Qed.

Lemma flat_length (w : list fips197.word) :
  length (fips197.flat w) = (4 * length w)%nat.
Proof.
  induction w as [|[[[a b] c] d] w IH]; [reflexivity|].
  change (fips197.flat ((a, b, c, d) :: w)) with (a :: b :: c :: d :: fips197.flat w).
  cbn [length]. rewrite IH. lia.
Qed.

Lemma flat_bytes_nth (w : list fips197.word) (k : nat) :
  Forall is_byte (fips197.flat w) -> (k < length w)%nat ->
  Forall is_byte (fips197.word_bytes (nth k w fips197.zero_word)).
Proof.
  intros H Hk. rewrite <- slice_flat by exact Hk. now apply Forall_slice.
Qed.

Lemma neutral_lookup (r : nat) :
  aes_custom.param_or_default (repeat 1 10) r = Ok 1.
Proof. rewrite param_or_default_nth. now rewrite nth_repeat. Qed.

Lemma SBOX_lookup_SubByte (b : Z) :
  is_byte b -> py_index aes_custom.SBOX b = Ok (fips197.SubByte b).
Proof.
  intros H. rewrite SBOX_lookup by exact H. now rewrite SBOX_is_SubByte.
Qed.

(** One turn of the program's loop, started on the flattened words
    [w[0..i-1]], appends the bytes of the word [w[i]] of the standard. *)
Lemma neutral_step (w : list fips197.word) (i : nat) :
  (4 <= i < 44)%nat -> length w = i -> Forall is_byte (fips197.flat w) ->
  aes_custom.expansion_step (aes_custom.init None) (fips197.flat w) i
  = Ok (fips197.flat w ++ fips197.word_bytes (fips197.next_word w i)).
Proof.
  intros Hi Hlen Hb. unfold aes_custom.expansion_step, fips197.next_word, fips197.Nk.
  replace (i * 4)%nat with ((i - 1 + 1) * 4)%nat by lia.
  replace ((i - 3) * 4)%nat with ((i - 4 + 1) * 4)%nat by lia.
  rewrite !slice_flat by lia.
  pose proof (flat_bytes_nth w (i - 1) Hb ltac:(lia)) as Bt.
  pose proof (flat_bytes_nth w (i - 4) Hb ltac:(lia)) as Bp.
  destruct (nth (i - 1) w fips197.zero_word) as [[[t0 t1] t2] t3].
  destruct (nth (i - 4) w fips197.zero_word) as [[[p0 p1] p2] p3].
  cbn [fips197.word_bytes] in *.
  do 4 (apply Forall_cons_iff in Bt; destruct Bt as [? Bt]).
  destruct (i mod 4 =? 0)%nat eqn:Hm.
  - cbn [aes_custom.init aes_custom.rotations aes_custom.rcon_multipliers].
    rewrite !neutral_lookup. cbn [bind].
    change (aes_custom.rot_word [t0; t1; t2; t3] 1) with [t1; t2; t3; t0].
    unfold aes_custom.sub_word. cbn [comprehension].
    rewrite !SBOX_lookup_SubByte by assumption. cbn [bind].
    assert (Hr : (i / 4 - 1 < 10)%nat).
    { assert (i / 4 < 11)%nat by (apply Nat.Div0.div_lt_upper_bound; lia). lia. }
    destruct (RCON_lookup _ Hr) as [E1 E2].
    rewrite E1. cbn [bind]. rewrite E2. cbn [bind aes_custom.xor_first].
    rewrite new_word_of_words. cbn [bind].
    unfold fips197.Rcon, fips197.SubWord, fips197.RotWord, fips197.xor_word.
    cbn [fips197.word_bytes]. rewrite !Z.lxor_0_r.
    rewrite (Z.lxor_comm p0), (Z.lxor_comm p1), (Z.lxor_comm p2), (Z.lxor_comm p3).
    reflexivity.
  - cbn [bind]. rewrite new_word_of_words. cbn [bind].
    unfold fips197.xor_word. cbn [fips197.word_bytes].
    rewrite (Z.lxor_comm p0), (Z.lxor_comm p1), (Z.lxor_comm p2), (Z.lxor_comm p3).
    reflexivity.
Qed.

Lemma neutral_loop (n : nat) :
  forall (i : nat) (w : list fips197.word),
    (4 <= i)%nat -> (i + n <= 44)%nat -> length w = i ->
    Forall is_byte (fips197.flat w) ->
    for_each (aes_custom.expansion_step (aes_custom.init None)) (seq i n) (fips197.flat w)
    = Ok (fips197.flat (fold_left (fun w i => w ++ [fips197.next_word w i]) (seq i n) w)).
Proof.
  induction n as [|n IH]; intros i w Hi Hn Hlen Hb; [reflexivity|].
  cbn [seq for_each fold_left].
  pose proof (neutral_step w i ltac:(lia) Hlen Hb) as Hs.
  destruct (expansion_step_ok (aes_custom.init None) (fips197.flat w) i)
    as (bytes & Hs' & _ & Bw); try lia; auto.
  { rewrite flat_length. lia. }
  rewrite Hs in Hs'. inversion Hs' as [Heq]. apply app_inv_head in Heq.
  rewrite Hs. cbn [bind].
  replace (fips197.flat w ++ fips197.word_bytes (fips197.next_word w i))
    with (fips197.flat (w ++ [fips197.next_word w i])).
  - apply IH; try lia.
    + rewrite length_app. simpl. lia.
    + rewrite flat_app. apply Forall_app. split; [exact Hb|].
      unfold fips197.flat. simpl. rewrite app_nil_r, Heq. exact Bw.
  - rewrite flat_app. unfold fips197.flat at 2. simpl. now rewrite app_nil_r.
Qed.

Lemma flat_key_words (key : list Z) :
  length key = 16%nat -> fips197.flat (fips197.key_words key) = key.
Proof.
  intros H.
  do 16 (destruct key as [|? key]; [discriminate H|]).
  destruct key; [reflexivity|discriminate H].
Qed.

Lemma neutral_schedule (key : list Z) :
  length key = 16%nat -> Forall is_byte key ->
  for_each (aes_custom.expansion_step (aes_custom.init None)) (seq 4 40) key
  = Ok (fips197.KeyExpansion key).
Proof.
  intros Hlen Hb.
  pose proof (neutral_loop 40 4 (fips197.key_words key)) as H.
  rewrite (flat_key_words key Hlen) in H.
  apply H; [lia | lia | reflexivity | exact Hb].
Qed.

Lemma standard_schedule_bytes (key : list Z) :
  length key = 16%nat -> Forall is_byte key ->
  Forall is_byte (fips197.KeyExpansion key).
Proof.
  intros Hlen Hb.
  destruct (expansion_loop_ok (aes_custom.init None) 40 4 key) as (ext & E & _ & Be);
    try lia; auto.
  rewrite (neutral_schedule key Hlen Hb) in E.
  inversion E as [E']. rewrite E'. apply Forall_app. auto.
Qed.

(** C1. With [rotations = [1]*10] and [rcon_multipliers = [1]*10] the
    program computes, for every 16-byte key, the AES-128 key expansion of
    FIPS-197; for the key [00 01 ... 0f] the result is the published list of
    round keys. *)
Theorem neutral_expansion_is_standard_aes128 :
  (forall key : list Z,
     length key = 16%nat -> Forall is_byte key ->
     aes_custom.custom_key_expansion (custom_aes (repeat 1 10) (repeat 1 10)) key
     = Ok (fips197.KeyExpansion key)) /\
  aes_custom.custom_key_expansion (custom_aes (repeat 1 10) (repeat 1 10)) key_00_0f
  = Ok fips197.published_expansion_00_0f.
Proof.
  split; [|vm_compute; reflexivity].
  intros key Hlen Hb.
  change (custom_aes (repeat 1 10) (repeat 1 10)) with (aes_custom.init None).
  unfold aes_custom.custom_key_expansion.
  rewrite (neutral_schedule key Hlen Hb). cbn [bind]. unfold py_bytes.
  rewrite forallb_is_byte by (now apply standard_schedule_bytes).
  reflexivity.
Qed.

Lemma neutral_expansion_is_standard_aes128_witness :
  aes_custom.custom_key_expansion (custom_aes (repeat 1 10) (repeat 1 10)) key_00_0f
  = Ok (fips197.KeyExpansion key_00_0f).
Proof.
  exact (proj1 neutral_expansion_is_standard_aes128 key_00_0f eq_refl key_00_0f_bytes).
Defined.

(** ** [encrypt] *)

(** C4. For every plaintext and 16-byte key, two cipher objects with any
    two parameter configurations return the same ciphertext and store the
    same key: the parameters reach only the expanded schedule kept for the
    entropy metric. *)
Theorem encrypt_ignores_schedule_parameters
        (AES_ECB_encrypt : list Z -> list Z -> outcome (list Z))
        (pad : list Z -> list Z)
        (self1 self2 : aes_custom.CustomAES) (plaintext k : list Z)
        (start1 end1 start2 end2 : Q) :
  length k = 16%nat -> Forall is_byte k ->
  fst (aes_custom.encrypt AES_ECB_encrypt pad self1 plaintext k start1 end1)
  = fst (aes_custom.encrypt AES_ECB_encrypt pad self2 plaintext k start2 end2) /\
  aes_custom.key (snd (aes_custom.encrypt AES_ECB_encrypt pad self1 plaintext k start1 end1))
  = aes_custom.key (snd (aes_custom.encrypt AES_ECB_encrypt pad self2 plaintext k start2 end2)) /\
  fst (aes_custom.encrypt AES_ECB_encrypt pad self1 plaintext k start1 end1)
  = AES_ECB_encrypt k (pad plaintext).
Proof.
  intros Hlen Hb. unfold aes_custom.encrypt.
  destruct (custom_key_expansion_total (aes_custom.set_key self1 k) k)
    as (ext1 & -> & _); try lia; auto.
  destruct (custom_key_expansion_total (aes_custom.set_key self2 k) k)
    as (ext2 & -> & _); try lia; auto.
  destruct (AES_ECB_encrypt k (pad plaintext)); simpl; auto.
Qed.

Lemma encrypt_ignores_schedule_parameters_witness :
  fst (aes_custom.encrypt standin_cipher pkcs7_pad (aes_custom.init None)
                          [116; 101; 115; 116] key_00_0f 0 1)
  = fst (aes_custom.encrypt standin_cipher pkcs7_pad example_aes
                            [116; 101; 115; 116] key_00_0f 5 7).
Proof.
  exact (proj1 (encrypt_ignores_schedule_parameters standin_cipher pkcs7_pad
                  (aes_custom.init None) example_aes [116; 101; 115; 116] key_00_0f
                  0 1 5 7 eq_refl key_00_0f_bytes)).
Defined.

(** The parameters do reach the expanded schedule. *)
Lemma schedule_depends_on_parameters :
  aes_custom.custom_key_expansion (aes_custom.init None) key_00_0f
  <> aes_custom.custom_key_expansion example_aes key_00_0f.
Proof. vm_compute. discriminate. Qed.

(** * The optimiser *)

Import ga_optimizer.

(** ** Reasoning about computations of [R] *)

Lemma always_ret {A : Type} (a : A) (P : A -> Prop) : P a -> always (ret a) P.
Proof. intros H e. exists a, e. auto. Qed.

Lemma always_bind {A B : Type} (m : R A) (k : A -> R B) (P : A -> Prop) (Q : B -> Prop) :
  always m P -> (forall a, P a -> always (k a) Q) -> always (rbind m k) Q.
Proof.
  intros Hm Hk e.
  destruct (Hm e) as (a & e1 & E & Pa).
  destruct (Hk a Pa e1) as (b & e2 & E2 & Qb).
  exists b, e2. unfold rbind. rewrite E. auto.
Qed.

Lemma always_weaken {A : Type} (m : R A) (P Q : A -> Prop) :
  always m P -> (forall a, P a -> Q a) -> always m Q.
Proof.
  intros Hm H e. destruct (Hm e) as (a & e1 & E & Pa). eauto.
Qed.

Lemma rbind_ok {A B : Type} (m : R A) (k : A -> R B) (e e' : env) (b : B) :
  rbind m k e = (Ok b, e') ->
  exists a e1, m e = (Ok a, e1) /\ k a e1 = (Ok b, e').
Proof.
  unfold rbind. destruct (m e) as [[a|x] e1]; intros H; [eauto|discriminate].
Qed.

Lemma post_ret {A : Type} (a : A) (P : A -> Prop) : P a -> post (ret a) P.
Proof. intros H e a' e' E. inversion E; subst. exact H. Qed.

Lemma post_bind {A B : Type} (m : R A) (k : A -> R B) (P : A -> Prop) (Q : B -> Prop) :
  post m P -> (forall a, P a -> post (k a) Q) -> post (rbind m k) Q.
Proof.
  intros Hm Hk e b e' E.
  apply rbind_ok in E. destruct E as (a & e1 & E1 & E2).
  eapply Hk; [eapply Hm|]; eassumption.
Qed.

Lemma post_weaken {A : Type} (m : R A) (P Q : A -> Prop) :
  post m P -> (forall a, P a -> Q a) -> post m Q.
Proof. intros Hm H e a e' E. eauto. Qed.

Lemma always_post {A : Type} (m : R A) (P : A -> Prop) : always m P -> post m P.
Proof.
  intros H e a e' E. destruct (H e) as (a' & e1 & E' & Pa).
  rewrite E in E'. inversion E'; subst. exact Pa.
Qed.

Lemma always_and_post {A : Type} (m : R A) (P Q : A -> Prop) :
  always m P -> post m Q -> always m (fun a => P a /\ Q a).
Proof.
  intros Ha Hp e. destruct (Ha e) as (a & e1 & E & Pa).
  exists a, e1. eauto.
Qed.

Lemma always_rfor {A S : Type} (body : S -> A -> R S) (I : S -> Prop) (l : list A) :
  (forall s x, In x l -> I s -> always (body s x) I) ->
  forall acc, I acc -> always (rfor body l acc) I.
Proof.
  induction l as [|x l IH]; intros Hbody acc Hacc; cbn [rfor].
  - now apply always_ret.
  - eapply always_bind.
    + apply Hbody; [now left|exact Hacc].
    + intros s Hs. apply IH; [|exact Hs].
      intros s' y Hy. apply Hbody. now right.
Qed.

Lemma always_rmap {A B : Type} (f : A -> R B) (Rel : A -> B -> Prop) (l : list A) :
  (forall x, In x l -> always (f x) (Rel x)) ->
  always (rmap f l) (fun r => Forall2 Rel l r).
Proof.
  induction l as [|x l IH]; intros Hf; cbn [rmap].
  - apply always_ret. constructor.
  - eapply always_bind; [apply Hf; now left|].
    intros y Hy. eapply always_bind.
    + apply IH. intros z Hz. apply Hf. now right.
    + intros ys Hys. apply always_ret. now constructor.
Qed.

Lemma post_rmap {A B : Type} (f : A -> R B) (Rel : A -> B -> Prop) (l : list A) :
  (forall x, In x l -> post (f x) (Rel x)) ->
  post (rmap f l) (fun r => Forall2 Rel l r).
Proof.
  induction l as [|x l IH]; intros Hf; cbn [rmap].
  - apply post_ret. constructor.
  - eapply post_bind; [apply Hf; now left|].
    intros y Hy. eapply post_bind.
    + apply IH. intros z Hz. apply Hf. now right.
    + intros ys Hys. apply post_ret. now constructor.
Qed.

Lemma Forall2_right {A B : Type} (P : B -> Prop) (l : list A) (r : list B) :
  Forall2 (fun _ y => P y) l r -> Forall P r /\ length r = length l.
Proof.
  induction 1 as [|x y l r Hy _ [IH1 IH2]]; simpl; auto.
Qed.

(** ** The random source *)

Section RandomSource.

Variable tape : nat -> Z.

Lemma random_random_unit :
  always (random_random tape) (fun u => (0 <= u)%Q /\ (u < 1)%Q).
Proof.
  intros e. eexists. eexists. split; [reflexivity|].
  pose proof (Z.mod_pos_bound (tape (rng_pos e)) (2 ^ 53) ltac:(lia)) as [H0 H1].
  unfold Qle, Qlt. cbn [Qnum Qden].
  change (Z.pos (2 ^ 53)) with (2 ^ 53). lia.
Qed.

Lemma random_randint_range (a b : Z) :
  a <= b -> always (random_randint tape a b) (fun z => a <= z <= b).
Proof.
  intros Hab e. eexists. eexists. split; [reflexivity|].
  pose proof (Z.mod_pos_bound (tape (rng_pos e)) (b - a + 1) ltac:(lia)). lia.
Qed.

Lemma remove_nth_length {A : Type} (l : list A) (i : nat) :
  (i < length l)%nat -> length (remove_nth l i) = (length l - 1)%nat.
Proof.
  revert i. induction l as [|x l IH]; intros [|i] H; simpl in *; try lia.
  rewrite IH by lia. lia.
Qed.

Lemma remove_nth_In {A : Type} (l : list A) (i : nat) (x : A) :
  In x (remove_nth l i) -> In x l.
Proof.
  revert i. induction l as [|y l IH]; intros [|i] H; simpl in *; auto.
  destruct H as [H|H]; eauto.
Qed.

Lemma sample_loop_always {A : Type} (k : nat) :
  forall pool : list A,
    (k <= length pool)%nat ->
    always (sample_loop tape pool k)
           (fun s => length s = k /\ forall x, In x s -> In x pool).
Proof.
  induction k as [|k IH]; intros pool Hk; cbn [sample_loop].
  - apply always_ret. split; [reflexivity|]. intros x [].
  - destruct pool as [|x0 pool]; [simpl in Hk; lia|].
    intros e. unfold rbind at 1. cbn [next_draw].
    set (d := tape (rng_pos e)).
    set (j := Z.to_nat (d mod Z.of_nat (length (x0 :: pool)))).
    assert (Hj : (j < length (x0 :: pool))%nat).
    { pose proof (Z.mod_pos_bound d (Z.of_nat (length (x0 :: pool)))
                                  ltac:(simpl length; lia)). unfold j. lia. }
    destruct (IH (remove_nth (x0 :: pool) j)
                 ltac:(rewrite remove_nth_length by exact Hj; simpl in *; lia)
                 (mkEnv (S (rng_pos e)) (eval_pos e)))
      as (rest & e1 & E & Lr & Ir).
    exists (nth j (x0 :: pool) x0 :: rest), e1.
    unfold rbind. rewrite E. split; [reflexivity|]. split.
    + simpl. now rewrite Lr.
    + intros x [<-|Hx].
      * exact (nth_In (x0 :: pool) x0 Hj).
      * eapply remove_nth_In, Ir, Hx.
Qed.

Lemma random_sample_always {A : Type} (population : list A) (k : nat) :
  (k <= length population)%nat ->
  always (random_sample tape population k)
         (fun s => length s = k /\ forall x, In x s -> In x population).
Proof.
  intros Hk. unfold random_sample.
  destruct (Nat.ltb_spec (length population) k) as [H|H]; [lia|].
  now apply sample_loop_always.
Qed.

Lemma sample_loop_post {A : Type} (k : nat) :
  forall pool : list A,
    post (sample_loop tape pool k) (fun s => forall x, In x s -> In x pool).
Proof.
  induction k as [|k IH]; intros pool; cbn [sample_loop].
  - apply post_ret. intros x [].
  - destruct pool as [|x0 pool]; [apply post_ret; intros x []|].
    intros e s e' E.
    apply rbind_ok in E. destruct E as (d & e1 & E1 & E2).
    apply rbind_ok in E2. destruct E2 as (rest & e2 & E2 & E3).
    inversion E3; subst. clear E3.
    set (j := Z.to_nat (d mod Z.of_nat (length (x0 :: pool)))) in *.
    assert (Hj : (j < length (x0 :: pool))%nat).
    { pose proof (Z.mod_pos_bound d (Z.of_nat (length (x0 :: pool)))
                                  ltac:(simpl length; lia)). unfold j. lia. }
    intros x [<-|Hx].
    + exact (nth_In (x0 :: pool) x0 Hj).
    + eapply remove_nth_In, (IH _ _ _ _ E2), Hx.
Qed.

Lemma random_sample_post {A : Type} (population : list A) (k : nat) :
  post (random_sample tape population k) (fun s => forall x, In x s -> In x population).
Proof.
  unfold random_sample.
  destruct (length population <? k)%nat.
  - intros e s e' E. discriminate E.
  - apply sample_loop_post.
Qed.

End RandomSource.

(** ** Chromosomes: construction, crossover, mutation *)

Lemma baseline_valid : valid_chromosome baseline.
Proof.
  unfold valid_chromosome, baseline. cbn [rotations rcon_multipliers].
  repeat split; try reflexivity;
    apply Forall_forall; intros g Hg; apply repeat_spec in Hg; subst; unfold gene; lia.
Qed.

Lemma firstn_skipn_genes (p : nat) (l1 l2 : list Z) :
  length l1 = 10%nat -> length l2 = 10%nat -> Forall gene l1 -> Forall gene l2 ->
  length (firstn p l1 ++ skipn p l2) = 10%nat /\
  Forall gene (firstn p l1 ++ skipn p l2).
Proof.
  intros L1 L2 G1 G2. split.
  - rewrite length_app, length_firstn, length_skipn. lia.
  - apply Forall_app. split.
    + now apply Forall_firstn_keeps.
    + now apply Forall_skipn_keeps.
Qed.

Lemma list_set_length {A : Type} (l : list A) (i : nat) (v : A) :
  length (list_set l i v) = length l.
Proof.
  revert i. induction l as [|x l IH]; intros [|i]; simpl; auto.
Qed.

Lemma list_set_Forall {A : Type} (P : A -> Prop) (l : list A) (i : nat) (v : A) :
  P v -> Forall P l -> Forall P (list_set l i v).
Proof.
  intros Hv H. revert i. induction H as [|x l Hx Hl IH]; intros [|i]; simpl; auto.
Qed.

Section Operators.

Variable tape : nat -> Z.
Variable probe : nat -> KeyScheduleChromosome -> measurement.

Lemma random_genes_always :
  always (random_genes tape) (fun l => length l = 10%nat /\ Forall gene l).
Proof.
  unfold random_genes.
  eapply always_weaken.
  - apply (always_rmap _ (fun _ g => gene g)).
    intros x _. apply random_randint_range. lia.
  - intros l H. apply Forall2_right in H. destruct H as [H1 H2].
    split; [exact H2|exact H1].
Qed.

(** [KeyScheduleChromosome()] draws twenty genes of the domain. *)
Lemma random_chromosome_valid :
  always (new_chromosome tape None None) valid_chromosome.
Proof.
  unfold new_chromosome.
  eapply always_bind; [apply random_genes_always|]. intros rot [L1 G1].
  eapply always_bind; [apply random_genes_always|]. intros rc [L2 G2].
  apply always_ret. unfold valid_chromosome. auto.
Qed.

(** [KeyScheduleChromosome(rot, rc)] keeps the lists it is given. *)
Lemma explicit_chromosome (rot rc : list Z) :
  new_chromosome tape (Some rot) (Some rc) = ret (mkChromosome rot rc 0 []).
Proof. reflexivity. Qed.

Lemma rbind_ret_l {A B : Type} (a : A) (k : A -> R B) : rbind (ret a) k = k a.
Proof. reflexivity. Qed.

Lemma append_random_chromosome (population : list KeyScheduleChromosome) :
  always (chromosome <~ new_chromosome tape None None ;;
          ret (population ++ [chromosome]))
         (fun p => exists c, valid_chromosome c /\ p = population ++ [c]).
Proof.
  eapply always_bind; [apply random_chromosome_valid|].
  intros c Vc. apply always_ret. eauto.
Qed.

Lemma initialize_population_always (self : GeneticAlgorithm) :
  always (initialize_population tape self)
         (fun p => Forall valid_chromosome p /\
                   length p = S (population_size self - 1) /\
                   nth_error p 0 = Some baseline).
Proof.
  unfold initialize_population. rewrite explicit_chromosome, rbind_ret_l.
  fold baseline.
  assert (H : forall (l : list nat) (acc : list KeyScheduleChromosome),
             Forall valid_chromosome acc -> nth_error acc 0 = Some baseline ->
             always (rfor (fun population (_ : nat) =>
                             chromosome <~ new_chromosome tape None None ;;
                             ret (population ++ [chromosome])) l acc)
                    (fun p => Forall valid_chromosome p /\
                              length p = (length acc + length l)%nat /\
                              nth_error p 0 = Some baseline)).
  { induction l as [|x l IH]; intros acc Va Ha; cbn [rfor].
    - apply always_ret. simpl. rewrite Nat.add_0_r. auto.
    - eapply always_bind; [apply append_random_chromosome|].
      intros acc' (c & Vc & ->).
      eapply always_weaken.
      + apply IH.
        * apply Forall_app. auto.
        * destruct acc; [discriminate Ha|exact Ha].
      + intros p (Vp & Lp & Hp). rewrite length_app in Lp. simpl in *.
        repeat split; auto. lia. }
  eapply always_weaken.
  - apply H; [|reflexivity]. constructor; [apply baseline_valid|constructor].
  - intros p (Vp & Lp & Hp). rewrite length_seq in Lp. simpl in Lp. auto.
Qed.

(** [evaluate] changes the fitness and the metrics only; it returns when
    the speed score is defined and raises [ZeroDivisionError] otherwise. *)
Lemma evaluate_cases (self : GeneticAlgorithm) (c : KeyScheduleChromosome) (e : env) :
  (exists c', evaluate probe self c e
              = (Ok c', mkEnv (rng_pos e) (S (eval_pos e))) /\
              rotations c' = rotations c /\
              rcon_multipliers c' = rcon_multipliers c /\
              ~ (1 + enc_time (probe (eval_pos e) c) * 10 == 0)%Q) \/
  (evaluate probe self c e
   = (Raise ZeroDivisionError, mkEnv (rng_pos e) (S (eval_pos e))) /\
   (1 + enc_time (probe (eval_pos e) c) * 10 == 0)%Q).
Proof.
  unfold evaluate, evaluate_fitness, measure, rbind, ret, raise.
  destruct (Qeq_bool _ 0) eqn:E.
  - right. split; [reflexivity|]. now apply Qeq_bool_iff.
  - left. eexists. split; [reflexivity|]. split; [reflexivity|].
    split; [reflexivity|]. now apply Qeq_bool_neq.
Qed.

Lemma evaluate_post (self : GeneticAlgorithm) (c : KeyScheduleChromosome) :
  post (evaluate probe self c)
       (fun c' => rotations c' = rotations c /\
                  rcon_multipliers c' = rcon_multipliers c).
Proof.
  intros e c' e' E.
  destruct (evaluate_cases self c e) as [(c0 & E0 & H1 & H2 & _)|[E0 _]];
    rewrite E0 in E; inversion E; subst; auto.
Qed.

Lemma evaluate_always (self : GeneticAlgorithm) (c : KeyScheduleChromosome) :
  speed_is_defined probe ->
  always (evaluate probe self c)
         (fun c' => rotations c' = rotations c /\
                    rcon_multipliers c' = rcon_multipliers c).
Proof.
  intros Hspeed e.
  destruct (evaluate_cases self c e) as [(c0 & E0 & H1 & H2 & _)|[_ E0]].
  - eauto.
  - exfalso. exact (Hspeed _ _ E0).
Qed.


Lemma evaluated_is_valid (c c' : KeyScheduleChromosome) :
  valid_chromosome c ->
  rotations c' = rotations c /\ rcon_multipliers c' = rcon_multipliers c ->
  valid_chromosome c'.
Proof.
  intros V [E1 E2]. unfold valid_chromosome in *. now rewrite E1, E2.
Qed.

Lemma evaluate_all_post (self : GeneticAlgorithm) (l : list KeyScheduleChromosome) :
  Forall valid_chromosome l ->
  post (rmap (evaluate probe self) l)
       (fun r => Forall valid_chromosome r /\ length r = length l).
Proof.
  intros Hl.
  eapply post_weaken.
  - apply (post_rmap _ (fun c c' => valid_chromosome c')).
    intros c Hc. rewrite Forall_forall in Hl. specialize (Hl c Hc).
    eapply post_weaken; [apply evaluate_post|].
    intros c' H. now apply (evaluated_is_valid c).
  - intros r. apply Forall2_right.
Qed.

Lemma evaluate_all_always (self : GeneticAlgorithm) (l : list KeyScheduleChromosome) :
  speed_is_defined probe -> Forall valid_chromosome l ->
  always (rmap (evaluate probe self) l)
         (fun r => Forall valid_chromosome r /\ length r = length l).
Proof.
  intros Hspeed Hl.
  eapply always_weaken.
  - apply (always_rmap _ (fun c c' => valid_chromosome c')).
    intros c Hc. rewrite Forall_forall in Hl. specialize (Hl c Hc).
    eapply always_weaken; [apply evaluate_always, Hspeed|].
    intros c' H. now apply (evaluated_is_valid c).
  - intros r. apply Forall2_right.
Qed.


(** The winner of a tournament is one of the contestants. *)
Lemma fold_max_In (r : list KeyScheduleChromosome) :
  forall x : KeyScheduleChromosome,
    In (fold_left (fun best c => if Qltb (fitness best) (fitness c) then c else best) r x)
       (x :: r).
Proof.
  induction r as [|y r IH]; intros x; cbn [fold_left]; [now left|].
  destruct (Qltb (fitness x) (fitness y)).
  - right. apply IH.
  - destruct (IH x) as [H|H]; [left; exact H|right; right; exact H].
Qed.

Lemma max_by_fitness_post (l : list KeyScheduleChromosome) :
  post (max_by_fitness l) (fun c => In c l).
Proof.
  destruct l as [|x r]; intros e c e' E; [discriminate E|].
  inversion E; subst. apply fold_max_In.
Qed.

Lemma selection_post (population : list KeyScheduleChromosome) (k : nat) :
  post (selection_tournament tape population k) (fun c => In c population).
Proof.
  unfold selection_tournament.
  eapply post_bind; [apply random_sample_post|].
  intros s Hs. eapply post_weaken; [apply max_by_fitness_post|]. auto.
Qed.

Lemma selection_always (population : list KeyScheduleChromosome) :
  (3 <= length population)%nat ->
  always (selection_tournament tape population 3) (fun c => In c population).
Proof.
  intros H. unfold selection_tournament.
  eapply always_bind; [apply random_sample_always; exact H|].
  intros s [Ls Is].
  destruct s as [|x r]; [discriminate Ls|].
  apply always_ret. apply Is, fold_max_In.
Qed.

(** Crossover of two valid parents gives two valid children, on either
    branch. *)
Lemma crossover_always (self : GeneticAlgorithm) (p1 p2 : KeyScheduleChromosome) :
  valid_chromosome p1 -> valid_chromosome p2 ->
  always (crossover_single_point tape self p1 p2)
         (fun ch => valid_chromosome (fst ch) /\ valid_chromosome (snd ch)).
Proof.
  intros V1 V2. unfold crossover_single_point.
  eapply always_bind; [apply random_random_unit|]. intros u _.
  destruct (Qltb (crossover_rate self) u).
  - apply always_ret. auto.
  - eapply always_bind; [apply (random_randint_range tape 1 9); lia|].
    intros point _. rewrite !explicit_chromosome, !rbind_ret_l.
    apply always_ret.
    destruct V1 as (L1 & L1' & G1 & G1'), V2 as (L2 & L2' & G2 & G2').
    unfold valid_chromosome. cbn [fst snd rotations rcon_multipliers].
    pose proof (firstn_skipn_genes (Z.to_nat point) _ _ L1 L2 G1 G2).
    pose proof (firstn_skipn_genes (Z.to_nat point) _ _ L1' L2' G1' G2').
    pose proof (firstn_skipn_genes (Z.to_nat point) _ _ L2 L1 G2 G1).
    pose proof (firstn_skipn_genes (Z.to_nat point) _ _ L2' L1' G2' G1').
    tauto.
Qed.

Lemma mutate_genes_always (self : GeneticAlgorithm) (genes : list Z) :
  Forall gene genes ->
  always (mutate_genes tape self genes)
         (fun l => length l = length genes /\ Forall gene l).
Proof.
  intros G. unfold mutate_genes.
  apply (always_rfor _ (fun l => length l = length genes /\ Forall gene l)); [|auto].
  intros l i _ [Ll Gl].
  eapply always_bind; [apply random_random_unit|]. intros u _.
  destruct (Qltb u (mutation_rate self)).
  - eapply always_bind; [apply (random_randint_range tape 1 3); lia|].
    intros g Hg. apply always_ret. split.
    + now rewrite list_set_length.
    + now apply list_set_Forall.
  - apply always_ret. auto.
Qed.

(** Mutation keeps a valid chromosome valid. *)
Lemma mutate_always (self : GeneticAlgorithm) (c : KeyScheduleChromosome) :
  valid_chromosome c -> always (mutate tape self c) valid_chromosome.
Proof.
  intros (L1 & L2 & G1 & G2). unfold mutate.
  eapply always_bind; [apply mutate_genes_always; exact G1|]. intros rot [Lr Gr].
  eapply always_bind; [apply mutate_genes_always; exact G2|]. intros rc [Lc Gc].
  apply always_ret. unfold valid_chromosome. cbn [rotations rcon_multipliers].
  rewrite Lr, Lc. auto.
Qed.

End Operators.

(** ** Sorting by fitness *)

Lemma Qltb_true (a b : Q) : Qltb a b = true -> (a < b)%Q.
Proof.
  unfold Qltb. intros H. apply negb_true_iff in H.
  apply Qnot_le_lt. intros Hle. apply Qle_bool_iff in Hle. congruence.
Qed.

Lemma Qltb_false (a b : Q) : Qltb a b = false -> (b <= a)%Q.
Proof.
  unfold Qltb. intros H. apply negb_false_iff in H. now apply Qle_bool_iff.
Qed.

Lemma insert_desc_perm (c : KeyScheduleChromosome) (l : list KeyScheduleChromosome) :
  Permutation (insert_desc c l) (c :: l).
Proof.
  induction l as [|y l IH]; cbn [insert_desc]; [reflexivity|].
  destruct (Qltb (fitness c) (fitness y)); [|reflexivity].
  rewrite IH. apply perm_swap.
Qed.

Lemma sort_by_fitness_perm (l : list KeyScheduleChromosome) :
  Permutation (sort_by_fitness l) l.
Proof.
  induction l as [|c l IH]; cbn [sort_by_fitness fold_right]; [reflexivity|].
  rewrite insert_desc_perm. now constructor.
Qed.

Lemma insert_desc_descending (c : KeyScheduleChromosome) (l : list KeyScheduleChromosome) :
  descending l -> descending (insert_desc c l).
Proof.
  induction 1 as [|y l Hy Hl IH]; cbn [insert_desc].
  - constructor; constructor.
  - destruct (Qltb (fitness c) (fitness y)) eqn:E.
    + constructor; [|exact IH].
      apply (Permutation_Forall (Permutation_sym (insert_desc_perm c l))).
      constructor; [|exact Hy]. apply Qlt_le_weak, Qltb_true, E.
    + apply Qltb_false in E. constructor; [|now constructor].
      constructor; [exact E|].
      eapply Forall_impl; [|exact Hy]. intros z Hz. cbv beta in Hz.
      eapply Qle_trans; eassumption.
Qed.

Lemma sort_by_fitness_descending (l : list KeyScheduleChromosome) :
  descending (sort_by_fitness l).
Proof.
  induction l as [|c l IH]; cbn [sort_by_fitness fold_right].
  - constructor.
  - now apply insert_desc_descending.
Qed.

(** After the sort the first chromosome is a fittest one. *)
Lemma sorted_head_is_fittest (l rest : list KeyScheduleChromosome)
      (top : KeyScheduleChromosome) :
  sort_by_fitness l = top :: rest ->
  forall c, In c l -> (fitness c <= fitness top)%Q.
Proof.
  intros E c Hc.
  pose proof (sort_by_fitness_descending l) as D. rewrite E in D.
  apply (Permutation_in _ (Permutation_sym (sort_by_fitness_perm l))) in Hc.
  rewrite E in Hc. inversion D as [|? ? Hall _]; subst.
  destruct Hc as [<-|Hc]; [apply Qle_refl|].
  rewrite Forall_forall in Hall. now apply Hall.
Qed.

Lemma sort_by_fitness_valid (l : list KeyScheduleChromosome) :
  Forall valid_chromosome l -> Forall valid_chromosome (sort_by_fitness l).
Proof.
  apply Permutation_Forall, Permutation_sym, sort_by_fitness_perm.
Qed.

Lemma sort_by_fitness_length (l : list KeyScheduleChromosome) :
  length (sort_by_fitness l) = length l.
Proof. apply Permutation_length, sort_by_fitness_perm. Qed.

(** ** Building the next population *)

Section Population.

Variable tape : nat -> Z.
Variable probe : nat -> KeyScheduleChromosome -> measurement.

(** One turn of the offspring loop from valid parents: two valid children. *)
Lemma breed_post (self : GeneticAlgorithm) (population : list KeyScheduleChromosome)
      (k : KeyScheduleChromosome -> KeyScheduleChromosome -> R (list KeyScheduleChromosome))
      (Q : list KeyScheduleChromosome -> Prop) :
  Forall valid_chromosome population ->
  (forall c1 c2, valid_chromosome c1 -> valid_chromosome c2 -> post (k c1 c2) Q) ->
  post (parent1 <~ selection_tournament tape population 3 ;;
        parent2 <~ selection_tournament tape population 3 ;;
        children <~ crossover_single_point tape self parent1 parent2 ;;
        child1 <~ mutate tape self (fst children) ;;
        child2 <~ mutate tape self (snd children) ;;
        k child1 child2) Q.
Proof.
  intros Vp Hk. rewrite Forall_forall in Vp.
  eapply post_bind; [apply selection_post|]. intros p1 H1.
  eapply post_bind; [apply selection_post|]. intros p2 H2.
  eapply post_bind; [apply always_post, crossover_always; auto|]. intros ch [V1 V2].
  eapply post_bind; [apply always_post, mutate_always, V1|]. intros c1 Vc1.
  eapply post_bind; [apply always_post, mutate_always, V2|]. intros c2 Vc2.
  now apply Hk.
Qed.

Lemma breed_always (self : GeneticAlgorithm) (population : list KeyScheduleChromosome)
      (k : KeyScheduleChromosome -> KeyScheduleChromosome -> R (list KeyScheduleChromosome))
      (Q : list KeyScheduleChromosome -> Prop) :
  (3 <= length population)%nat -> Forall valid_chromosome population ->
  (forall c1 c2, always (k c1 c2) Q) ->
  always (parent1 <~ selection_tournament tape population 3 ;;
          parent2 <~ selection_tournament tape population 3 ;;
          children <~ crossover_single_point tape self parent1 parent2 ;;
          child1 <~ mutate tape self (fst children) ;;
          child2 <~ mutate tape self (snd children) ;;
          k child1 child2) Q.
Proof.
  intros Hlen Vp Hk. rewrite Forall_forall in Vp.
  eapply always_bind; [apply selection_always, Hlen|]. intros p1 H1.
  eapply always_bind; [apply selection_always, Hlen|]. intros p2 H2.
  eapply always_bind; [apply crossover_always; auto|]. intros ch [V1 V2].
  eapply always_bind; [apply mutate_always, V1|]. intros c1 Vc1.
  eapply always_bind; [apply mutate_always, V2|]. intros c2 Vc2.
  apply Hk.
Qed.

(** Whatever the loop returns extends the list it started from with valid
    chromosomes. *)
Lemma offspring_loop_post (self : GeneticAlgorithm)
      (population : list KeyScheduleChromosome) (fuel : nat) :
  Forall valid_chromosome population ->
  forall next_generation,
    Forall valid_chromosome next_generation ->
    post (offspring_loop tape fuel self population next_generation)
         (fun r => Forall valid_chromosome r /\ exists ext, r = next_generation ++ ext).
Proof.
  intros Vp. induction fuel as [|fuel IH]; intros ng Vng; cbn [offspring_loop].
  - destruct (length ng <? population_size self)%nat;
      apply post_ret; (split; [exact Vng|exists []; now rewrite app_nil_r]).
  - destruct (length ng <? population_size self)%nat;
      [|apply post_ret; split; [exact Vng|exists []; now rewrite app_nil_r]].
    apply breed_post; [exact Vp|]. intros c1 c2 V1 V2.
    destruct (length (ng ++ [c1]) <? population_size self)%nat.
    + eapply post_weaken.
      * apply IH. repeat (apply Forall_app; split; auto).
      * intros r (Vr & ext & ->). split; [exact Vr|].
        exists ([c1] ++ [c2] ++ ext). now rewrite <- !app_assoc.
    + eapply post_weaken.
      * apply IH. apply Forall_app; split; auto.
      * intros r (Vr & ext & ->). split; [exact Vr|].
        exists ([c1] ++ ext). now rewrite <- !app_assoc.
Qed.

(** With at least three chromosomes to draw from, the loop returns, and it
    leaves through its guard: the list is full. *)
Lemma offspring_loop_always (self : GeneticAlgorithm)
      (population : list KeyScheduleChromosome) (fuel : nat) :
  (3 <= length population)%nat -> Forall valid_chromosome population ->
  forall next_generation,
    (population_size self - length next_generation <= fuel)%nat ->
    always (offspring_loop tape fuel self population next_generation)
           (fun r => length r = Nat.max (length next_generation) (population_size self)).
Proof.
  intros Hlen Vp. induction fuel as [|fuel IH]; intros ng Hfuel; cbn [offspring_loop].
  - destruct (Nat.ltb_spec (length ng) (population_size self)); [lia|].
    apply always_ret. lia.
  - destruct (Nat.ltb_spec (length ng) (population_size self)) as [Hlt|Hge];
      [|apply always_ret; lia].
    apply breed_always; [exact Hlen|exact Vp|]. intros c1 c2.
    destruct (Nat.ltb_spec (length (ng ++ [c1])) (population_size self)) as [H1|H1];
      rewrite length_app in H1; simpl in H1.
    + eapply always_weaken.
      * apply IH. rewrite !length_app. simpl. lia.
      * intros r Lr. rewrite !length_app in Lr. simpl in Lr. lia.
    + eapply always_weaken.
      * apply IH. rewrite !length_app. simpl. lia.
      * intros r Lr. rewrite !length_app in Lr. simpl in Lr. lia.
Qed.

(** The next population, when it is returned, is valid and starts with the
    elite of the current one. *)
Lemma next_population_post (self : GeneticAlgorithm)
      (population : list KeyScheduleChromosome) :
  Forall valid_chromosome population ->
  post (next_population tape probe self population)
       (fun r => Forall valid_chromosome r /\
                 exists rest, r = firstn (elitism_count self) population ++ rest).
Proof.
  intros Vp. unfold next_population.
  eapply post_bind.
  - apply offspring_loop_post; [exact Vp|]. now apply Forall_firstn_keeps.
  - intros ng (Vng & ext & ->).
    eapply post_bind.
    + apply evaluate_all_post. now apply Forall_skipn_keeps.
    + intros evaluated [Ve _]. apply post_ret. split.
      * apply Forall_app. split; [now apply Forall_firstn_keeps|exact Ve].
      * set (elite := firstn (elitism_count self) population).
        assert (Le : (length elite <= elitism_count self)%nat)
          by (unfold elite; rewrite length_firstn; lia).
        rewrite firstn_app.
        rewrite (firstn_all2 (n := elitism_count self) elite) by exact Le.
        rewrite <- app_assoc. eauto.
Qed.

(** When the speed score is defined, a full population of at least three
    chromosomes always has a successor, of the same size. *)
Lemma next_population_always (self : GeneticAlgorithm)
      (population : list KeyScheduleChromosome) :
  speed_is_defined probe ->
  (3 <= length population)%nat -> length population = population_size self ->
  Forall valid_chromosome population ->
  always (next_population tape probe self population)
         (fun r => length r = population_size self).
Proof.
  intros Hspeed Hlen Hsize Vp. unfold next_population.
  eapply always_bind.
  - apply always_and_post.
    + apply offspring_loop_always; [exact Hlen|exact Vp|]. lia.
    + apply offspring_loop_post; [exact Vp|]. now apply Forall_firstn_keeps.
  - intros ng [Lng [Vng _]]. cbv beta in Lng.
    rewrite length_firstn in Lng.
    eapply always_bind.
    + apply evaluate_all_always; [exact Hspeed|]. now apply Forall_skipn_keeps.
    + intros evaluated [_ Le]. apply always_ret.
      rewrite length_app, length_firstn, Le, length_skipn. lia.
Qed.

End Population.

(** ** The generation loop *)

Lemma store_best_config (self : GeneticAlgorithm) (b : Q) (top : KeyScheduleChromosome) :
  population_size (store_best self b top) = population_size self /\
  elitism_count (store_best self b top) = elitism_count self /\
  num_generations (store_best self b top) = num_generations self /\
  best_fitness_history (store_best self b top) = best_fitness_history self.
Proof.
  unfold store_best. destruct (best_chromosome self) as [c|]; [|auto].
  destruct (Qltb (fitness c) b); auto.
Qed.

Lemma recorded_config (self : GeneticAlgorithm) (b a : Q) (top : KeyScheduleChromosome) :
  population_size (store_best (record_generation self b a) b top) = population_size self /\
  elitism_count (store_best (record_generation self b a) b top) = elitism_count self /\
  best_fitness_history (store_best (record_generation self b a) b top)
  = best_fitness_history self ++ [b].
Proof.
  destruct (store_best_config (record_generation self b a) b top) as (-> & -> & _ & ->).
  auto.
Qed.

Lemma non_decreasing_nil : non_decreasing [].
Proof. intros [|g] a b H; discriminate H. Qed.

Lemma last_of_snoc (h : list Q) (b : Q) :
  nth_error (h ++ [b]) (pred (length (h ++ [b]))) = Some b.
Proof.
  rewrite length_app. simpl. rewrite Nat.add_1_r. simpl.
  rewrite nth_error_app2 by lia. now rewrite Nat.sub_diag.
Qed.

Lemma non_decreasing_snoc (h : list Q) (b : Q) :
  non_decreasing h ->
  (forall a, nth_error h (pred (length h)) = Some a -> (a <= b)%Q) ->
  non_decreasing (h ++ [b]).
Proof.
  intros Hh Hlast g x y Hx Hy.
  destruct (Nat.lt_ge_cases (S g) (length h)) as [Hlt|Hge].
  - rewrite nth_error_app1 in Hx, Hy by lia. eapply Hh; eassumption.
  - assert (Hy' : nth_error (h ++ [b]) (S g) <> None) by congruence.
    apply nth_error_Some in Hy'. rewrite length_app in Hy'. simpl in Hy'.
    assert (Hg : S g = length h) by lia.
    rewrite nth_error_app1 in Hx by lia.
    rewrite nth_error_app2 in Hy by lia.
    rewrite Hg, Nat.sub_diag in Hy. inversion Hy; subst y.
    apply Hlast. rewrite <- Hg. exact Hx.
Qed.

(** In a non-decreasing history every entry is at most the last one. *)
Lemma non_decreasing_last (h : list Q) (g : nat) (x a : Q) :
  non_decreasing h ->
  nth_error h g = Some x -> nth_error h (pred (length h)) = Some a -> (x <= a)%Q.
Proof.
  intros Hh Hx Ha.
  assert (Hg : (g < length h)%nat) by (apply nth_error_Some; congruence).
  remember (pred (length h) - g)%nat as d eqn:Hd.
  revert g x Hx Hg Hd. induction d as [|d IH]; intros g x Hx Hg Hd.
  - replace (pred (length h)) with g in Ha by lia.
    rewrite Hx in Ha. inversion Ha. apply Qle_refl.
  - destruct (nth_error h (S g)) as [y|] eqn:Hy.
    + apply Qle_trans with y; [eapply Hh; eassumption|].
      apply (IH (S g)); [exact Hy|lia|lia].
    + apply nth_error_None in Hy. lia.
Qed.

Section Generations.

Variable tape : nat -> Z.
Variable probe : nat -> KeyScheduleChromosome -> measurement.

(** When the speed score is defined, a full, valid population of at least
    three chromosomes goes through any number of generations: the loop
    returns a population of the same kind and has recorded one entry per
    generation. *)
Lemma generations_always (n : nat) :
  forall (self : GeneticAlgorithm) (population : list KeyScheduleChromosome) (e : env),
    speed_is_defined probe ->
    (3 <= population_size self)%nat -> length population = population_size self ->
    Forall valid_chromosome population ->
    exists population' self' e',
      generations tape probe n self population e = (Ok population', self', e') /\
      Forall valid_chromosome population' /\
      length population' = population_size self /\
      length (best_fitness_history self')
      = (length (best_fitness_history self) + n)%nat.
Proof.
  induction n as [|n IH]; intros self population e Hspeed Hsize Hlen Vp;
    cbn [generations].
  - exists population, self, e. repeat split; auto.
  - pose proof (sort_by_fitness_length population) as Ls.
    pose proof (sort_by_fitness_valid population Vp) as Vs.
    destruct (sort_by_fitness population) as [|top rest] eqn:Es;
      [simpl in Ls; lia|].
    set (self1 := store_best _ _ _).
    destruct (recorded_config self (fitness top) (mean_fitness (top :: rest)) top)
      as (Hps & Hec & Hh). fold self1 in Hps, Hec, Hh.
    destruct (next_population_always tape probe self1 (top :: rest)
                Hspeed ltac:(lia) ltac:(lia) Vs e) as (ng & e1 & E & Lng).
    pose proof (next_population_post tape probe self1 (top :: rest) Vs e ng e1 E)
      as [Vng _].
    rewrite E.
    destruct (IH self1 ng e1 Hspeed ltac:(lia) ltac:(lia) Vng)
      as (population' & self' & e' & E' & Vp' & Lp' & Lh').
    exists population', self', e'. rewrite E'. repeat split; auto; try lia.
    rewrite Lh', Hh, length_app. simpl. lia.
Qed.

(** Validity survives the loop whenever it returns. *)
Lemma generations_post (n : nat) :
  forall (self self' : GeneticAlgorithm)
         (population population' : list KeyScheduleChromosome) (e e' : env),
    Forall valid_chromosome population ->
    generations tape probe n self population e = (Ok population', self', e') ->
    Forall valid_chromosome population'.
Proof.
  induction n as [|n IH]; intros self self' population population' e e' Vp E;
    cbn [generations] in E.
  - inversion E; subst. exact Vp.
  - pose proof (sort_by_fitness_valid population Vp) as Vs.
    destruct (sort_by_fitness population) as [|top rest]; [discriminate E|].
    set (self1 := store_best _ _ _) in E.
    destruct (next_population tape probe self1 (top :: rest) e) as [[ng|x] e1] eqn:En;
      [|discriminate E].
    pose proof (next_population_post tape probe self1 (top :: rest) Vs e ng e1 En)
      as [Vng _].
    eapply IH; eassumption.
Qed.

(** With an elite of at least one chromosome the recorded best fitness
    never goes down, and the population handed to the next turn still
    holds a chromosome at least as fit as the last entry. *)
Lemma generations_history (n : nat) :
  forall (self : GeneticAlgorithm) (population : list KeyScheduleChromosome) (e : env),
    (1 <= elitism_count self)%nat ->
    Forall valid_chromosome population ->
    non_decreasing (best_fitness_history self) ->
    (forall a, nth_error (best_fitness_history self)
                         (pred (length (best_fitness_history self))) = Some a ->
               exists c, In c population /\ (a <= fitness c)%Q) ->
    let '(r, self', _) := generations tape probe n self population e in
    non_decreasing (best_fitness_history self') /\
    forall population' a,
      r = Ok population' ->
      nth_error (best_fitness_history self')
                (pred (length (best_fitness_history self'))) = Some a ->
      exists c, In c population' /\ (a <= fitness c)%Q.
Proof.
  induction n as [|n IH]; intros self population e Hec Vp Hh Hlast; cbn [generations].
  - split; [exact Hh|]. intros population' a E. inversion E; subst. apply Hlast.
  - pose proof (sort_by_fitness_valid population Vp) as Vs.
    pose proof (sorted_head_is_fittest population) as Hmax.
    destruct (sort_by_fitness population) as [|top rest] eqn:Es.
    { split; [exact Hh|]. intros ? ? E. discriminate E. }
    specialize (Hmax rest top eq_refl).
    set (self1 := store_best _ _ _).
    destruct (recorded_config self (fitness top) (mean_fitness (top :: rest)) top)
      as (_ & Hec1 & Hh1). fold self1 in Hec1, Hh1.
    assert (Hnd : non_decreasing (best_fitness_history self1)).
    { rewrite Hh1. apply non_decreasing_snoc; [exact Hh|].
      intros a Ha. destruct (Hlast a Ha) as (c & Hc & Hac).
      eapply Qle_trans; [exact Hac|]. now apply Hmax. }
    destruct (next_population tape probe self1 (top :: rest) e) as [[ng|x] e1] eqn:En.
    + pose proof (next_population_post tape probe self1 (top :: rest) Vs e ng e1 En)
        as [Vng [more Hng]].
      apply IH; [lia|exact Vng|exact Hnd|].
      intros a Ha. rewrite Hh1, last_of_snoc in Ha. inversion Ha; subst a.
      exists top. split; [|apply Qle_refl].
      rewrite Hng. rewrite Hec1.
      destruct (elitism_count self) as [|k]; [lia|]. now left.
    + split; [exact Hnd|]. intros ? ? E. discriminate E.
Qed.

(** What the loop appends to the history, whatever the history held
    before: with an elite of at least one chromosome the appended entries
    never go down. *)
Lemma generations_appends (n : nat) :
  forall (self : GeneticAlgorithm) (population : list KeyScheduleChromosome) (e : env)
         (before h : list Q),
    (1 <= elitism_count self)%nat ->
    Forall valid_chromosome population ->
    best_fitness_history self = before ++ h ->
    non_decreasing h ->
    (forall a, nth_error h (pred (length h)) = Some a ->
               exists c, In c population /\ (a <= fitness c)%Q) ->
    exists h',
      best_fitness_history (snd (fst (generations tape probe n self population e)))
      = before ++ h' /\
      non_decreasing h'.
Proof.
  induction n as [|n IH]; intros self population e before h Hec Vp Hh Hnd Hlast;
    cbn [generations].
  - exists h. auto.
  - pose proof (sort_by_fitness_valid population Vp) as Vs.
    pose proof (sorted_head_is_fittest population) as Hmax.
    destruct (sort_by_fitness population) as [|top rest] eqn:Es; [exists h; auto|].
    specialize (Hmax rest top eq_refl).
    set (self1 := store_best _ _ _).
    destruct (recorded_config self (fitness top) (mean_fitness (top :: rest)) top)
      as (_ & Hec1 & Hh1). fold self1 in Hec1, Hh1.
    rewrite Hh, <- app_assoc in Hh1.
    assert (Hnd1 : non_decreasing (h ++ [fitness top])).
    { apply non_decreasing_snoc; [exact Hnd|].
      intros a Ha. destruct (Hlast a Ha) as (c & Hc & Hac).
      eapply Qle_trans; [exact Hac|]. now apply Hmax. }
    destruct (next_population tape probe self1 (top :: rest) e) as [[ng|x] e1] eqn:En.
    + pose proof (next_population_post tape probe self1 (top :: rest) Vs e ng e1 En)
        as [Vng [more Hng]].
      apply (IH self1 ng e1 before (h ++ [fitness top])); auto; [lia|].
      intros a Ha. rewrite last_of_snoc in Ha. inversion Ha; subst a.
      exists top. split; [|apply Qle_refl].
      rewrite Hng, Hec1.
      destruct (elitism_count self) as [|k]; [lia|]. now left.
    + exists (h ++ [fitness top]). auto.
Qed.

(** The initial population of [evolve]: built, then evaluated. *)
Lemma initial_population_post (self : GeneticAlgorithm) :
  post (population <~ initialize_population tape self ;;
        rmap (evaluate probe self) population)
       (fun p => Forall valid_chromosome p /\
                 length p = S (population_size self - 1)).
Proof.
  eapply post_bind; [apply always_post, initialize_population_always|].
  intros p (Vp & Lp & _).
  eapply post_weaken; [apply evaluate_all_post, Vp|].
  intros r [Vr Lr]. split; [exact Vr|congruence].
Qed.

Lemma initial_population_always (self : GeneticAlgorithm) :
  speed_is_defined probe ->
  always (population <~ initialize_population tape self ;;
          rmap (evaluate probe self) population)
         (fun p => Forall valid_chromosome p /\
                   length p = S (population_size self - 1)).
Proof.
  intros Hspeed.
  eapply always_bind; [apply initialize_population_always|].
  intros p (Vp & Lp & _).
  eapply always_weaken; [apply evaluate_all_always; [exact Hspeed|exact Vp]|].
  intros r [Vr Lr]. split; [exact Vr|congruence].
Qed.


(** Whenever [evolve] returns a chromosome, it is a valid one. *)
Lemma evolve_post (self self' : GeneticAlgorithm) (e e' : env)
      (c : KeyScheduleChromosome) :
  evolve tape probe self e = (Ok c, self', e') -> valid_chromosome c.
Proof.
  unfold evolve. intros E.
  pose proof (initial_population_post self e) as Hinit.
  destruct ((population <~ initialize_population tape self ;;
             rmap (evaluate probe self) population) e) as [[p|x] e1];
    [|discriminate E].
  destruct (Hinit p e1 eq_refl) as [Vp _].
  destruct (generations tape probe (num_generations self) self p e1)
    as [[[p'|x] self1] e2] eqn:Eg; [|discriminate E].
  pose proof (generations_post _ _ _ _ _ _ _ Vp Eg) as Vp'.
  apply sort_by_fitness_valid in Vp'.
  destruct (sort_by_fitness p') as [|top rest]; [discriminate E|].
  inversion E; subst. now inversion Vp'.
Qed.

(** When the speed score is defined and the population has at least three
    chromosomes, [evolve] returns, after exactly [num_generations] recorded
    generations. *)
Lemma evolve_always (self : GeneticAlgorithm) (e : env) :
  speed_is_defined probe ->
  (3 <= population_size self)%nat ->
  exists c self' e',
    evolve tape probe self e = (Ok c, self', e') /\
    valid_chromosome c /\
    length (best_fitness_history self')
    = (length (best_fitness_history self) + num_generations self)%nat.
Proof.
  intros Hspeed Hsize.
  destruct (initial_population_always self Hspeed e) as (p & e1 & E1 & Vp & Lp).
  destruct (generations_always (num_generations self) self p e1 Hspeed Hsize
                               ltac:(lia) Vp)
    as (p' & self1 & e2 & Eg & Vp' & Lp' & Lh).
  pose proof (sort_by_fitness_length p') as Ls.
  destruct (sort_by_fitness p') as [|top rest] eqn:Es; [simpl in Ls; lia|].
  exists top, (set_best_chromosome self1 top), e2.
  assert (E : evolve tape probe self e = (Ok top, set_best_chromosome self1 top, e2)).
  { unfold evolve. rewrite E1, Eg, Es. reflexivity. }
  split; [exact E|]. split; [eapply evolve_post, E|exact Lh].
Qed.

End Generations.

(** ** [evolve]: the claims *)

(** C6. For every run of [evolve] with [elitism_count >= 1], whatever the
    draws, the measurements and the history the object already held, the
    best fitness values the run records, one per generation, never decrease
    from one generation to the next (also when the run stops on an error). *)
Theorem best_fitness_history_is_non_decreasing
        (tape : nat -> Z) (probe : nat -> KeyScheduleChromosome -> measurement)
        (self : GeneticAlgorithm) (e : env) :
  (1 <= elitism_count self)%nat ->
  exists recorded,
    best_fitness_history (snd (fst (evolve tape probe self e)))
    = best_fitness_history self ++ recorded /\
    non_decreasing recorded.
Proof.
  intros Hec. unfold evolve.
  pose proof (initial_population_post tape probe self e) as Hinit.
  destruct ((population <~ initialize_population tape self ;;
             rmap (evaluate probe self) population) e) as [[p|x] e1].
  - destruct (Hinit p e1 eq_refl) as [Vp _].
    destruct (generations_appends tape probe (num_generations self) self p e1
                (best_fitness_history self) [] Hec Vp
                ltac:(now rewrite app_nil_r) non_decreasing_nil
                ltac:(intros a Ha; discriminate Ha))
      as (h & Hh & Hnd).
    destruct (generations tape probe (num_generations self) self p e1) as [[r self1] e2].
    exists h. split; [|exact Hnd].
    destruct r as [p'|x]; [|exact Hh].
    destruct (sort_by_fitness p'); exact Hh.
  - exists []. split; [now rewrite app_nil_r|apply non_decreasing_nil].
Qed.

Lemma best_fitness_history_is_non_decreasing_witness :
  exists recorded,
    best_fitness_history
      (snd (fst (evolve demo_tape improving_probe ga_with_elitism fresh_env)))
    = best_fitness_history ga_with_elitism ++ recorded /\
    non_decreasing recorded.
Proof.
  apply best_fitness_history_is_non_decreasing. simpl. lia.
Defined.

(** With an elite the chromosome [evolve] returns is at least as fit as
    every recorded best. *)
Lemma evolve_with_elitism_returns_fittest
      (tape : nat -> Z) (probe : nat -> KeyScheduleChromosome -> measurement)
      (self self' : GeneticAlgorithm) (e e' : env) (c : KeyScheduleChromosome) :
  (1 <= elitism_count self)%nat -> best_fitness_history self = [] ->
  evolve tape probe self e = (Ok c, self', e') ->
  forall g b, nth_error (best_fitness_history self') g = Some b -> (b <= fitness c)%Q.
Proof.
  intros Hec Hfresh E g b Hb. unfold evolve in E.
  pose proof (initial_population_post tape probe self e) as Hinit.
  destruct ((population <~ initialize_population tape self ;;
             rmap (evaluate probe self) population) e) as [[p|x0] e1];
    [|discriminate E].
  destruct (Hinit p e1 eq_refl) as [Vp _].
  pose proof (generations_history tape probe (num_generations self) self p e1 Hec Vp) as H.
  rewrite Hfresh in H. specialize (H non_decreasing_nil).
  destruct (generations tape probe (num_generations self) self p e1) as [[r self1] e2].
  destruct H as [Hnd Hlast]; [intros a Ha; discriminate Ha|].
  destruct r as [p'|x]; [|discriminate E].
  pose proof (sorted_head_is_fittest p') as Hmax.
  destruct (sort_by_fitness p') as [|top rest]; [discriminate E|].
  inversion E; subst. cbn [set_best_chromosome best_fitness_history] in Hb.
  destruct (nth_error (best_fitness_history self1)
                      (pred (length (best_fitness_history self1)))) as [a|] eqn:Ha.
  - destruct (Hlast p' a eq_refl eq_refl) as (c' & Hc' & Hac).
    apply Qle_trans with a; [eapply non_decreasing_last; eassumption|].
    eapply Qle_trans; [exact Hac|]. eapply Hmax; [reflexivity|exact Hc'].
  - apply nth_error_None in Ha.
    assert (nth_error (best_fitness_history self1) g <> None) by congruence.
    apply nth_error_Some in H. lia.
Qed.

(** C5, on the program.  Without an elite ([elitism_count = 0], one
    generation, three chromosomes) [evolve] returns the best chromosome of
    the last population it built, whose fitness is below the best fitness
    the run recorded; the snapshot kept in [best_chromosome] during the
    loop is overwritten at the end. *)
Lemma evolve_without_elitism_returns_less_than_recorded_best :
  exists c self' e',
    evolve demo_tape demo_probe ga_without_elitism fresh_env = (Ok c, self', e') /\
    exists b, nth_error (best_fitness_history self') 0 = Some b /\
              (fitness c < b)%Q.
Proof.
  eexists. eexists. eexists. split; [vm_compute; reflexivity|].
  eexists. split; [reflexivity|]. vm_compute. reflexivity.
Qed.

(** C7. Random initialisation, the neutral baseline, crossover, mutation,
    a population step and the chromosome returned by [evolve] all have two
    gene lists of length 10 with every gene in 1..3.  (When the speed score
    is defined and the population has at least three chromosomes, [evolve]
    does return one.) *)
Theorem engine_chromosomes_are_valid
        (tape : nat -> Z) (probe : nat -> KeyScheduleChromosome -> measurement)
        (self : GeneticAlgorithm) :
  always (new_chromosome tape None None) valid_chromosome /\
  valid_chromosome baseline /\
  always (initialize_population tape self)
         (fun p => Forall valid_chromosome p /\ nth_error p 0 = Some baseline) /\
  (forall p1 p2, valid_chromosome p1 -> valid_chromosome p2 ->
     always (crossover_single_point tape self p1 p2)
            (fun ch => valid_chromosome (fst ch) /\ valid_chromosome (snd ch))) /\
  (forall c, valid_chromosome c -> always (mutate tape self c) valid_chromosome) /\
  (forall population, Forall valid_chromosome population ->
     post (next_population tape probe self (sort_by_fitness population))
          (Forall valid_chromosome)) /\
  (forall e c self' e', evolve tape probe self e = (Ok c, self', e') ->
     valid_chromosome c) /\
  ((3 <= population_size self)%nat -> speed_is_defined probe ->
   forall e, exists c self' e',
     evolve tape probe self e = (Ok c, self', e') /\ valid_chromosome c).
Proof.
  split; [apply random_chromosome_valid|].
  split; [apply baseline_valid|].
  split.
  { eapply always_weaken; [apply initialize_population_always|].
    intros p (Vp & _ & Hp). auto. }
  split; [intros; now apply crossover_always|].
  split; [intros; now apply mutate_always|].
  split.
  { intros population Vp.
    eapply post_weaken;
      [apply next_population_post, sort_by_fitness_valid, Vp|].
    intros r [Vr _]. exact Vr. }
  split.
  { intros e c self' e' E. eapply evolve_post, E. }
  intros Hsize Hspeed e.
  destruct (evolve_always tape probe self e Hspeed Hsize)
    as (c & self' & e' & E & Vc & _).
  eauto.
Qed.

Lemma demo_probe_speed : speed_is_defined demo_probe.
Proof.
  intros k c. unfold demo_probe.
  destruct (k <? 3)%nat; cbn [enc_time]; intros H; discriminate H.
Qed.

Lemma improving_probe_speed : speed_is_defined improving_probe.
Proof.
  intros k c. unfold improving_probe. cbn [enc_time].
  unfold Qeq. cbn. lia.
Qed.

Lemma all_twos_valid : valid_chromosome all_twos.
Proof.
  unfold valid_chromosome, all_twos. cbn [rotations rcon_multipliers].
  repeat split; try reflexivity;
    apply Forall_forall; intros g Hg; apply repeat_spec in Hg; subst; unfold gene; lia.
Qed.

Lemma all_threes_valid : valid_chromosome all_threes.
Proof.
  unfold valid_chromosome, all_threes. cbn [rotations rcon_multipliers].
  repeat split; try reflexivity;
    apply Forall_forall; intros g Hg; apply repeat_spec in Hg; subst; unfold gene; lia.
Qed.

Lemma engine_chromosomes_are_valid_witness :
  always (crossover_single_point demo_tape ga_with_elitism all_twos all_threes)
         (fun ch => valid_chromosome (fst ch) /\ valid_chromosome (snd ch)) /\
  always (mutate demo_tape ga_with_elitism all_twos) valid_chromosome /\
  exists c self' e',
    evolve demo_tape demo_probe ga_with_elitism fresh_env = (Ok c, self', e') /\
    valid_chromosome c.
Proof.
  pose proof (engine_chromosomes_are_valid demo_tape demo_probe ga_with_elitism)
    as (_ & _ & _ & Hx & Hm & _ & _ & He).
  split; [apply Hx; [apply all_twos_valid|apply all_threes_valid]|].
  split; [apply Hm, all_twos_valid|].
  apply He; [simpl; lia|apply demo_probe_speed].
Defined.

(** ** [crossover_single_point]: the claims *)

(** The function, one environment at a time: the first draw decides
    between the copies and the cut, the second draw is the cut point. *)
Lemma crossover_unfold (tape : nat -> Z) (self : GeneticAlgorithm)
      (p1 p2 : KeyScheduleChromosome) (e : env) :
  crossover_single_point tape self p1 p2 e =
  if Qltb (crossover_rate self) (Qmake (tape (rng_pos e) mod 2 ^ 53) (2 ^ 53))
  then (Ok (p1, p2), mkEnv (S (rng_pos e)) (eval_pos e))
  else
    let point := Z.to_nat (1 + tape (S (rng_pos e)) mod (9 - 1 + 1)) in
    (Ok (mkChromosome
           (firstn point (rotations p1) ++ skipn point (rotations p2))
           (firstn point (rcon_multipliers p1) ++ skipn point (rcon_multipliers p2)) 0 [],
         mkChromosome
           (firstn point (rotations p2) ++ skipn point (rotations p1))
           (firstn point (rcon_multipliers p2) ++ skipn point (rcon_multipliers p1)) 0 []),
     mkEnv (S (S (rng_pos e))) (eval_pos e)).
Proof.
  unfold crossover_single_point, random_random, random_randint, next_draw, rbind, ret.
  cbn [rng_pos eval_pos].
  destruct (Qltb _ _); reflexivity.
Qed.

Lemma unit_draw_below_one (d : Z) : (Qmake (d mod 2 ^ 53) (2 ^ 53) < 1)%Q.
Proof.
  pose proof (Z.mod_pos_bound d (2 ^ 53) ltac:(lia)) as [H0 H1].
  unfold Qlt. cbn [Qnum Qden]. change (Z.pos (2 ^ 53)) with (2 ^ 53). lia.
Qed.

Lemma cut_parts (p : nat) (l1 l2 : list Z) :
  (p <= length l1)%nat ->
  firstn p (firstn p l1 ++ skipn p l2) = firstn p l1 /\
  skipn p (firstn p l1 ++ skipn p l2) = skipn p l2.
Proof.
  intros H.
  assert (L : length (firstn p l1) = p) by (rewrite length_firstn; lia).
  split.
  - rewrite firstn_app, L, Nat.sub_diag. simpl firstn at 2.
    rewrite app_nil_r. apply firstn_all2. lia.
  - rewrite skipn_app, L, Nat.sub_diag. simpl skipn at 2.
    rewrite skipn_all2 by lia. reflexivity.
Qed.

(** C9. With [crossover_rate = 1] the crossover always cuts: one point of
    1..9 is drawn and used for both gene lists of both children; child 1
    has parent 1's genes before the point and parent 2's from it on, child 2
    the complement.  Every point of 1..9 is drawn by some random source. *)
Theorem crossover_rate_one_cuts_at_one_point :
  (forall (tape : nat -> Z) (self : GeneticAlgorithm)
          (p1 p2 : KeyScheduleChromosome) (e : env),
      (crossover_rate self == 1)%Q ->
      length (rotations p1) = 10%nat -> length (rcon_multipliers p1) = 10%nat ->
      length (rotations p2) = 10%nat -> length (rcon_multipliers p2) = 10%nat ->
      exists (point : nat) (child1 child2 : KeyScheduleChromosome) (e' : env),
        (1 <= point <= 9)%nat /\
        crossover_single_point tape self p1 p2 e = (Ok (child1, child2), e') /\
        firstn point (rotations child1) = firstn point (rotations p1) /\
        skipn point (rotations child1) = skipn point (rotations p2) /\
        firstn point (rcon_multipliers child1) = firstn point (rcon_multipliers p1) /\
        skipn point (rcon_multipliers child1) = skipn point (rcon_multipliers p2) /\
        firstn point (rotations child2) = firstn point (rotations p2) /\
        skipn point (rotations child2) = skipn point (rotations p1) /\
        firstn point (rcon_multipliers child2) = firstn point (rcon_multipliers p2) /\
        skipn point (rcon_multipliers child2) = skipn point (rcon_multipliers p1)) /\
  (forall point : nat,
      (1 <= point <= 9)%nat ->
      exists tape : nat -> Z,
        forall (self : GeneticAlgorithm) (p1 p2 : KeyScheduleChromosome),
          (crossover_rate self == 1)%Q ->
          fst (crossover_single_point tape self p1 p2 fresh_env)
          = Ok (mkChromosome
                  (firstn point (rotations p1) ++ skipn point (rotations p2))
                  (firstn point (rcon_multipliers p1) ++ skipn point (rcon_multipliers p2))
                  0 [],
                mkChromosome
                  (firstn point (rotations p2) ++ skipn point (rotations p1))
                  (firstn point (rcon_multipliers p2) ++ skipn point (rcon_multipliers p1))
                  0 [])).
Proof.
  assert (Hcut : forall (self : GeneticAlgorithm) (d : Z),
             (crossover_rate self == 1)%Q ->
             Qltb (crossover_rate self) (Qmake (d mod 2 ^ 53) (2 ^ 53)) = false).
  { intros self d Hrate. unfold Qltb. apply negb_false_iff, Qle_bool_iff.
    rewrite Hrate. apply Qlt_le_weak, unit_draw_below_one. }
  split.
  - intros tape self p1 p2 e Hrate L1 L1' L2 L2'.
    rewrite crossover_unfold, (Hcut self _ Hrate).
    set (point := Z.to_nat (1 + tape (S (rng_pos e)) mod (9 - 1 + 1))).
    assert (Hp : (1 <= point <= 9)%nat).
    { pose proof (Z.mod_pos_bound (tape (S (rng_pos e))) (9 - 1 + 1) ltac:(lia)).
      unfold point. lia. }
    cbv zeta. do 4 eexists. split; [exact Hp|]. split; [reflexivity|].
    cbn [rotations rcon_multipliers].
    pose proof (cut_parts point (rotations p1) (rotations p2) ltac:(lia)).
    pose proof (cut_parts point (rcon_multipliers p1) (rcon_multipliers p2) ltac:(lia)).
    pose proof (cut_parts point (rotations p2) (rotations p1) ltac:(lia)).
    pose proof (cut_parts point (rcon_multipliers p2) (rcon_multipliers p1) ltac:(lia)).
    tauto.
  - intros point Hp. exists (fun _ => Z.of_nat point - 1).
    intros self p1 p2 Hrate.
    rewrite crossover_unfold, (Hcut self _ Hrate). cbv zeta. cbn [fst].
    replace (Z.to_nat (1 + (Z.of_nat point - 1) mod (9 - 1 + 1))) with point;
      [reflexivity|].
    rewrite Z.mod_small by lia. lia.
Qed.

Lemma crossover_rate_one_cuts_at_one_point_witness :
  exists (point : nat) (child1 child2 : KeyScheduleChromosome) (e' : env),
    (1 <= point <= 9)%nat /\
    crossover_single_point demo_tape ga_rate_1 all_twos all_threes fresh_env
    = (Ok (child1, child2), e') /\
    firstn point (rotations child1) = firstn point (rotations all_twos) /\
    skipn point (rotations child1) = skipn point (rotations all_threes).
Proof.
  destruct (proj1 crossover_rate_one_cuts_at_one_point demo_tape ga_rate_1
                  all_twos all_threes fresh_env
                  ltac:(reflexivity) eq_refl eq_refl eq_refl eq_refl)
    as (point & c1 & c2 & e' & Hp & E & H1 & H2 & _).
  exists point, c1, c2, e'. auto.
Defined.

(** With [crossover_rate = 0] every draw of [random.random()] other than
    0.0 returns the two parents as they are. *)
Lemma crossover_rate_zero_copies_on_positive_draw
      (tape : nat -> Z) (self : GeneticAlgorithm)
      (p1 p2 : KeyScheduleChromosome) (e : env) :
  (crossover_rate self == 0)%Q -> tape (rng_pos e) mod 2 ^ 53 <> 0 ->
  fst (crossover_single_point tape self p1 p2 e) = Ok (p1, p2).
Proof.
  intros Hrate Hd. rewrite crossover_unfold.
  replace (Qltb _ _) with true; [reflexivity|].
  symmetry. unfold Qltb. apply negb_true_iff.
  destruct (Qle_bool _ _) eqn:E; [|reflexivity].
  apply Qle_bool_iff in E. rewrite Hrate in E.
  pose proof (Z.mod_pos_bound (tape (rng_pos e)) (2 ^ 53) ltac:(lia)).
  unfold Qle in E. cbn [Qnum Qden] in E. lia.
Qed.

(** C8, on the program.  The test is [random.random() > crossover_rate]:
    with [crossover_rate = 0] and the draw 0.0 it is false, so the parents
    are cut (here at point 5) and neither child is a copy of its parent. *)
Lemma crossover_rate_zero_cuts_on_draw_zero :
  (crossover_rate ga_rate_0 == 0)%Q /\
  fst (random_random zero_tape fresh_env) = Ok (0 # 2 ^ 53)%Q /\
  fst (crossover_single_point zero_tape ga_rate_0 all_twos all_threes fresh_env)
  = Ok (mkChromosome [2; 2; 2; 2; 2; 3; 3; 3; 3; 3] [2; 2; 2; 2; 2; 3; 3; 3; 3; 3] 0 [],
        mkChromosome [3; 3; 3; 3; 3; 2; 2; 2; 2; 2] [3; 3; 3; 3; 3; 2; 2; 2; 2; 2] 0 []) /\
  fst (crossover_single_point zero_tape ga_rate_0 all_twos all_threes fresh_env)
  <> Ok (all_twos, all_threes).
Proof.
  split; [reflexivity|]. split; [reflexivity|].
  split; [vm_compute; reflexivity|]. vm_compute. discriminate.
Qed.

(** The sibling test of [mutate], [random.random() < mutation_rate], never
    fires at rate 0: no draw changes a gene. *)
Lemma mutation_rate_zero_changes_nothing
      (tape : nat -> Z) (self : GeneticAlgorithm) (genes : list Z) :
  (mutation_rate self == 0)%Q ->
  always (mutate_genes tape self genes) (fun l => l = genes).
Proof.
  intros Hrate. unfold mutate_genes.
  apply (always_rfor _ (fun l => l = genes)); [|reflexivity].
  intros l i _ ->.
  eapply always_bind; [apply random_random_unit|]. intros u [Hu _].
  replace (Qltb u (mutation_rate self)) with false; [now apply always_ret|].
  symmetry. unfold Qltb. apply negb_false_iff, Qle_bool_iff. now rewrite Hrate.
Qed.

(** * Further properties of [aes_custom.py] *)

(** ** [rot_word] *)

(** Rotating a four-byte word by [a] and then by [b] bytes is rotating it
    by [a + b]; in particular only the rotation modulo 4 matters. *)
Theorem rot_word_composes (w : list Z) (a b : Z) :
  length w = 4%nat ->
  aes_custom.rot_word (aes_custom.rot_word w a) b = aes_custom.rot_word w (a + b).
Proof.
  intros H. four_elements w H. unfold aes_custom.rot_word.
  rewrite (Z.add_mod a b 4) by lia.
  pose proof (Z.mod_pos_bound a 4 ltac:(lia)) as Ha.
  pose proof (Z.mod_pos_bound b 4 ltac:(lia)) as Hb.
  revert Ha Hb. generalize (a mod 4) (b mod 4). intros ra rb Ha Hb.
  assert (Ea : ra = 0 \/ ra = 1 \/ ra = 2 \/ ra = 3) by lia.
  assert (Eb : rb = 0 \/ rb = 1 \/ rb = 2 \/ rb = 3) by lia.
  destruct Ea as [->|[->|[->| ->]]]; destruct Eb as [->|[->|[->| ->]]]; reflexivity.
Qed.

Lemma rot_word_composes_witness :
  aes_custom.rot_word (aes_custom.rot_word [10; 20; 30; 40] 3) 2
  = aes_custom.rot_word [10; 20; 30; 40] (3 + 2).
Proof. apply rot_word_composes. reflexivity. Defined.

(** [rot_word] only rearranges the word, whatever its length and the
    rotation, and a rotation by a multiple of 4 (0 included) gives the word
    back. *)
Theorem rot_word_rearranges (w : list Z) (p k : Z) :
  Permutation (aes_custom.rot_word w p) w /\
  aes_custom.rot_word w (p + 4 * k) = aes_custom.rot_word w p /\
  aes_custom.rot_word w (4 * k) = w.
Proof.
  unfold aes_custom.rot_word. split; [|split].
  - rewrite Permutation_app_comm. now rewrite firstn_skipn.
  - replace (p + 4 * k) with (p + k * 4) by lia. now rewrite Z.mod_add by lia.
  - replace (4 * k) with (0 + k * 4) by lia. rewrite Z.mod_add by lia.
    simpl. apply app_nil_r.
Qed.

(** ** [sub_word] *)

Lemma SBOX_lookup_in_table (b : Z) :
  in_table b ->
  py_index aes_custom.SBOX b
  = Ok (nth (Z.to_nat (if b <? 0 then b + 256 else b)) aes_custom.SBOX 0).
Proof.
  intros [H0 H1]. unfold py_index. rewrite SBOX_length.
  change (Z.of_nat 256) with 256.
  destruct (Z.ltb_spec b 0) as [Hneg|Hpos].
  - rewrite (proj2 (Z.leb_le 0 (b + 256))), (proj2 (Z.ltb_lt (b + 256) 256)) by lia.
    simpl andb. apply py_get_nth. rewrite SBOX_length. lia.
  - rewrite (proj2 (Z.leb_le 0 b)), (proj2 (Z.ltb_lt b 256)) by lia.
    simpl andb. apply py_get_nth. rewrite SBOX_length. lia.
Qed.

Lemma SBOX_lookup_outside (b : Z) :
  ~ in_table b -> py_index aes_custom.SBOX b = Raise IndexError.
Proof.
  intros H. unfold in_table in H. unfold py_index. rewrite SBOX_length.
  change (Z.of_nat 256) with 256.
  destruct (Z.ltb_spec b 0) as [Hneg|Hpos].
  - rewrite (proj2 (Z.leb_gt 0 (b + 256))) by lia. reflexivity.
  - rewrite (proj2 (Z.ltb_ge b 256)) by lia. now rewrite andb_false_r.
Qed.

(** [sub_word] returns exactly when every element is an index the table
    accepts, a negative one counting from the end as in Python; the result
    then has the length of the word and holds bytes.  Any other element
    makes the call raise [IndexError]. *)
Theorem sub_word_raises_exactly_outside_table (w : list Z) :
  (Forall in_table w ->
   exists s, aes_custom.sub_word w = Ok s /\ length s = length w /\ Forall is_byte s) /\
  (~ Forall in_table w -> aes_custom.sub_word w = Raise IndexError).
Proof.
  unfold aes_custom.sub_word.
  induction w as [|b w [IHok IHbad]]; cbn [comprehension].
  - split; [intros _; exists []; auto|]. intros H. exfalso. apply H. constructor.
  - split.
    + intros H. inversion H as [|? ? Hb Hw]; subst.
      destruct (IHok Hw) as (s & -> & Ls & Bs).
      rewrite (SBOX_lookup_in_table b Hb). cbn [bind].
      eexists. split; [reflexivity|]. split; [simpl; now rewrite Ls|].
      constructor; [apply SBOX_nth_byte|exact Bs].
    + intros H.
      assert (Hdec : in_table b \/ ~ in_table b) by (unfold in_table; lia).
      destruct Hdec as [Hb|Hb].
      * rewrite (SBOX_lookup_in_table b Hb). cbn [bind].
        rewrite IHbad; [reflexivity|]. intros Hw. apply H. now constructor.
      * now rewrite (SBOX_lookup_outside b Hb).
Qed.

Lemma sub_word_raises_exactly_outside_table_witness :
  (exists s, aes_custom.sub_word [0; 255; -1; -256] = Ok s /\
             length s = 4%nat /\ Forall is_byte s) /\
  aes_custom.sub_word [0; 256] = Raise IndexError.
Proof.
  split.
  - apply (proj1 (sub_word_raises_exactly_outside_table [0; 255; -1; -256])).
    repeat (apply Forall_cons; [unfold in_table; lia|]). apply Forall_nil.
  - apply (proj2 (sub_word_raises_exactly_outside_table [0; 256])).
    intros H. inversion H as [|? ? _ H1]; subst.
    inversion H1 as [|? ? H2 _]; subst. unfold in_table in H2. lia.
Defined.

(** ** The tables *)

Lemma distinct_NoDup (l : list Z) : distinct l = true -> NoDup l.
Proof.
  induction l as [|x l IH]; cbn [distinct]; intros H; [constructor|].
  apply andb_true_iff in H. destruct H as [Hx Hl].
  constructor; [|now apply IH].
  intros Hin. apply negb_true_iff in Hx.
  assert (existsb (Z.eqb x) l = true); [|congruence].
  apply existsb_exists. exists x. split; [exact Hin|apply Z.eqb_refl].
Qed.

(** The program's [SBOX] is the S-box of FIPS-197 (the inverse in GF(2^8)
    followed by the affine map) at each of its 256 entries, and a
    permutation of the bytes: 256 entries, all bytes, none repeated.
    [RCON] holds the first ten powers of [x]. *)
Theorem tables_are_the_standard_ones :
  (forall b, is_byte b -> py_index aes_custom.SBOX b = Ok (fips197.SubByte b)) /\
  length aes_custom.SBOX = 256%nat /\
  Forall is_byte aes_custom.SBOX /\
  NoDup aes_custom.SBOX /\
  (forall r, (r < 10)%nat -> py_get aes_custom.RCON r = Ok (fips197.gf_pow 2 r)) /\
  length aes_custom.RCON = 10%nat.
Proof.
  split; [apply SBOX_lookup_SubByte|].
  split; [reflexivity|].
  split; [apply SBOX_bytes|].
  split; [apply distinct_NoDup; vm_compute; reflexivity|].
  split; [|reflexivity].
  intros r Hr. apply RCON_lookup, Hr.
Qed.

Lemma tables_are_the_standard_ones_witness :
  py_index aes_custom.SBOX 0x53 = Ok (fips197.SubByte 0x53) /\
  py_get aes_custom.RCON 8 = Ok (fips197.gf_pow 2 8).
Proof.
  split.
  - apply (proj1 tables_are_the_standard_ones). unfold is_byte. lia.
  - apply (proj1 (proj2 (proj2 (proj2 (proj2 tables_are_the_standard_ones))))). lia.
Defined.

(** ** Helpers on the key length *)

Lemma short_key_raises (self : aes_custom.CustomAES) (key : list Z) :
  (length key < 16)%nat ->
  aes_custom.custom_key_expansion self key = Raise IndexError.
Proof.
  intros Hlen. unfold aes_custom.custom_key_expansion.
  change (seq 4 40) with (4%nat :: seq 5 39). cbn [for_each].
  rewrite short_key_first_turn by exact Hlen. reflexivity.
Qed.

Lemma expansion_of_16_byte_key (self : aes_custom.CustomAES) (key : list Z) :
  length key = 16%nat -> Forall is_byte key ->
  exists out, aes_custom.custom_key_expansion self key = Ok out /\
              length out = 176%nat /\ py_slice out 0 16 = key.
Proof.
  intros Hlen Hb.
  destruct (custom_key_expansion_total self key) as (ext & -> & Le & _); try lia; auto.
  exists (key ++ ext). split; [reflexivity|]. split.
  - rewrite length_app. lia.
  - unfold py_slice. simpl skipn. rewrite <- Hlen at 1.
    replace (length key - 0)%nat with (length key + 0)%nat by lia.
    rewrite firstn_app_2. simpl. apply app_nil_r.
Qed.

(** ** What [custom_key_expansion] reads of its parameters *)

Lemma for_each_ext_in {A S : Type} (f g : S -> A -> outcome S) (l : list A) :
  (forall acc x, In x l -> f acc x = g acc x) ->
  forall acc, for_each f l acc = for_each g l acc.
Proof.
  induction l as [|x l IH]; intros H acc; cbn [for_each]; [reflexivity|].
  rewrite (H acc x (or_introl eq_refl)).
  destruct (g acc x); cbn [bind]; [|reflexivity].
  apply IH. intros acc' y Hy. apply H. now right.
Qed.

Lemma rot_word_mod (w : list Z) (p q : Z) :
  p mod 4 = q mod 4 -> aes_custom.rot_word w p = aes_custom.rot_word w q.
Proof. unfold aes_custom.rot_word. now intros ->. Qed.

Lemma expansion_step_same_parameters (a b : aes_custom.CustomAES)
      (expanded : list Z) (i : nat) :
  same_schedule_parameters a b -> (4 <= i < 44)%nat ->
  aes_custom.expansion_step a expanded i = aes_custom.expansion_step b expanded i.
Proof.
  intros H Hi. unfold aes_custom.expansion_step.
  destruct (i mod 4 =? 0)%nat; [|reflexivity].
  assert (Hr : (i / 4 - 1 < 10)%nat).
  { assert (i / 4 < 11)%nat by (apply Nat.Div0.div_lt_upper_bound; lia). lia. }
  destruct (H _ Hr) as [Hrot Hrc]. unfold rcon_value in Hrc.
  rewrite !param_or_default_nth. cbn [bind].
  rewrite (rot_word_mod _ _ _ Hrot).
  destruct (aes_custom.sub_word _); cbn [bind]; [|reflexivity].
  rewrite (py_get_nth aes_custom.RCON _ 0) by exact Hr. cbn [bind].
  now rewrite Hrc.
Qed.

(** The expansion reads, of each round's parameters, only the rotation
    modulo 4 and the product with the round constant modulo 256, and only
    for the first ten rounds: two objects that agree on these compute the
    same result (schedule or exception) for every key. *)
Theorem expansion_reads_parameters_modulo (a b : aes_custom.CustomAES) (key : list Z) :
  same_schedule_parameters a b ->
  aes_custom.custom_key_expansion a key = aes_custom.custom_key_expansion b key.
Proof.
  intros H. unfold aes_custom.custom_key_expansion. f_equal.
  apply for_each_ext_in. intros acc i Hi. apply in_seq in Hi.
  apply expansion_step_same_parameters; [exact H|lia].
Qed.

Lemma congruent_parameters_example :
  same_schedule_parameters
    (custom_aes [5; -1; 2; 7; 1; 1; 1; 1; 1; 1; 9; 9] [257; 1; 1; 1; 1; 1; 1; 3; 1; 1])
    (custom_aes [1; 3; 2; 3; 1; 1; 1; 1; 1; 1] [1; 1; 1; 1; 1; 1; 1; 1; 1; 1]).
Proof.
  intros r Hr.
  do 10 (destruct r as [|r]; [split; vm_compute; reflexivity|]). lia.
Qed.

Lemma expansion_reads_parameters_modulo_witness :
  aes_custom.custom_key_expansion
    (custom_aes [5; -1; 2; 7; 1; 1; 1; 1; 1; 1; 9; 9] [257; 1; 1; 1; 1; 1; 1; 3; 1; 1])
    key_00_0f
  = aes_custom.custom_key_expansion
      (custom_aes [1; 3; 2; 3; 1; 1; 1; 1; 1; 1] [1; 1; 1; 1; 1; 1; 1; 1; 1; 1])
      key_00_0f.
Proof.
  apply expansion_reads_parameters_modulo, congruent_parameters_example.
Defined.

(** The product is an integer product, not one of GF(2^8): with the genes
    1..3 the effective round constant is 0 exactly in round index 7 under
    multiplier 2 (0x80 * 2 = 256), and in that round the multipliers 1 and 3
    give the same constant. *)
Theorem effective_round_constant_vanishes_once (round_num : nat) (rcon_mult : Z) :
  (round_num < 10)%nat -> gene rcon_mult ->
  (rcon_value round_num rcon_mult = 0 <-> round_num = 7%nat /\ rcon_mult = 2) /\
  rcon_value 7 1 = rcon_value 7 3.
Proof.
  intros Hr Hg. split; [|reflexivity].
  unfold gene in Hg.
  assert (Em : rcon_mult = 1 \/ rcon_mult = 2 \/ rcon_mult = 3) by lia.
  do 10 (destruct round_num as [|round_num];
         [destruct Em as [->|[->| ->]]; vm_compute; intuition congruence|]).
  lia.
Qed.

Lemma effective_round_constant_vanishes_once_witness :
  rcon_value 7 2 = 0 <-> 7%nat = 7%nat /\ 2 = 2.
Proof.
  apply (proj1 (effective_round_constant_vanishes_once 7 2 ltac:(lia)
                  ltac:(unfold gene; lia))).
Defined.

(** ** [encrypt] and [decrypt] *)

Section Cipher.

Variable AES_ECB_encrypt AES_ECB_decrypt : list Z -> list Z -> outcome (list Z).
Variable pad : list Z -> list Z.
Variable unpad : list Z -> outcome (list Z).

(** A key shorter than 16 bytes makes [encrypt] and [decrypt] abort with
    [IndexError] before the cipher is called.  The object is left with the
    new key but with the schedule and the timing logs it had: the stored
    schedule is then the one of an earlier key. *)
Theorem short_key_leaves_stale_schedule
        (self : aes_custom.CustomAES) (data k : list Z) (start_time end_time : Q) :
  (length k < 16)%nat ->
  aes_custom.encrypt AES_ECB_encrypt pad self data k start_time end_time
  = (Raise IndexError, aes_custom.set_key self k) /\
  aes_custom.decrypt AES_ECB_decrypt unpad self data k start_time end_time
  = (Raise IndexError, aes_custom.set_key self k) /\
  aes_custom.key (aes_custom.set_key self k) = Some k /\
  aes_custom.expanded_key (aes_custom.set_key self k) = aes_custom.expanded_key self /\
  aes_custom.encryption_times (aes_custom.set_key self k)
  = aes_custom.encryption_times self.
Proof.
  intros H. unfold aes_custom.encrypt, aes_custom.decrypt.
  rewrite (short_key_raises (aes_custom.set_key self k) k H).
  repeat split.
Qed.

(** With a 16-byte key [encrypt] stores the key and a 176-byte schedule
    that starts with it before it calls the cipher; the parameters are
    never modified, and one time, [(end - start) * 1000], is appended to the
    log exactly when the cipher returns. *)
Theorem encrypt_updates_the_object
        (self : aes_custom.CustomAES) (plaintext k : list Z) (start_time end_time : Q) :
  length k = 16%nat -> Forall is_byte k ->
  let r := aes_custom.encrypt AES_ECB_encrypt pad self plaintext k start_time end_time in
  aes_custom.key (snd r) = Some k /\
  (exists ek, aes_custom.expanded_key (snd r) = Some ek /\
              aes_custom.custom_key_expansion self k = Ok ek /\
              length ek = 176%nat /\ py_slice ek 0 16 = k) /\
  aes_custom.rotations (snd r) = aes_custom.rotations self /\
  aes_custom.rcon_multipliers (snd r) = aes_custom.rcon_multipliers self /\
  aes_custom.decryption_times (snd r) = aes_custom.decryption_times self /\
  aes_custom.encryption_times (snd r)
  = match fst r with
    | Ok _ => aes_custom.encryption_times self ++ [((end_time - start_time) * 1000)%Q]
    | Raise _ => aes_custom.encryption_times self
    end.
Proof.
  intros Hlen Hb. cbv zeta. unfold aes_custom.encrypt.
  assert (Hsame : aes_custom.custom_key_expansion (aes_custom.set_key self k) k
                  = aes_custom.custom_key_expansion self k) by reflexivity.
  rewrite Hsame.
  destruct (expansion_of_16_byte_key self k Hlen Hb) as (ek & E & Lek & Pek).
  rewrite E.
  destruct (AES_ECB_encrypt k (pad plaintext)); cbn;
    (repeat split; auto; exists ek; auto).
Qed.

(** What is encrypted under one parameter configuration is decrypted under
    any other, provided the library's cipher and padding invert each other:
    the parameters play no part in either direction. *)
Theorem decrypt_inverts_encrypt_across_parameters
        (self1 self2 : aes_custom.CustomAES) (plaintext k ciphertext : list Z)
        (start1 end1 start2 end2 : Q) :
  (forall data c, AES_ECB_encrypt k data = Ok c -> AES_ECB_decrypt k c = Ok data) ->
  unpad (pad plaintext) = Ok plaintext ->
  length k = 16%nat -> Forall is_byte k ->
  fst (aes_custom.encrypt AES_ECB_encrypt pad self1 plaintext k start1 end1)
  = Ok ciphertext ->
  fst (aes_custom.decrypt AES_ECB_decrypt unpad self2 ciphertext k start2 end2)
  = Ok plaintext.
Proof.
  intros Hinv Hpad Hlen Hb. unfold aes_custom.encrypt, aes_custom.decrypt.
  destruct (custom_key_expansion_total (aes_custom.set_key self1 k) k)
    as (ext1 & -> & _); try lia; auto.
  destruct (custom_key_expansion_total (aes_custom.set_key self2 k) k)
    as (ext2 & -> & _); try lia; auto.
  destruct (AES_ECB_encrypt k (pad plaintext)) as [c|x] eqn:E; cbn [fst];
    intros H; inversion H; subst.
  rewrite (Hinv _ _ E). cbn [bind]. rewrite Hpad. reflexivity.
Qed.

End Cipher.

Lemma short_key_leaves_stale_schedule_witness :
  aes_custom.encrypt standin_cipher pkcs7_pad example_aes test_bytes [1; 2; 3] 0 1
  = (Raise IndexError, aes_custom.set_key example_aes [1; 2; 3]).
Proof.
  apply (short_key_leaves_stale_schedule standin_cipher standin_decipher
           pkcs7_pad pkcs7_unpad example_aes test_bytes [1; 2; 3] 0 1).
  simpl. lia.
Defined.

Lemma encrypt_updates_the_object_witness :
  aes_custom.key
    (snd (aes_custom.encrypt standin_cipher pkcs7_pad example_aes test_bytes
                             key_00_0f 0 1))
  = Some key_00_0f.
Proof.
  apply (encrypt_updates_the_object standin_cipher pkcs7_pad example_aes test_bytes
           key_00_0f 0 1 eq_refl key_00_0f_bytes).
Defined.

Lemma standin_decipher_inverts (data c : list Z) :
  standin_cipher key_00_0f data = Ok c -> standin_decipher key_00_0f c = Ok data.
Proof.
  unfold standin_decipher, standin_cipher. cbn [length Nat.eqb key_00_0f map seq nth].
  change (length key_00_0f =? 16)%nat with true. cbv iota.
  intros H. inversion H; subst. f_equal. rewrite map_map.
  rewrite <- (map_id data) at 2. apply map_ext. intros b.
  change (nth 0 key_00_0f 0) with 0. now rewrite !Z.lxor_0_r.
Qed.

Lemma decrypt_inverts_encrypt_across_parameters_witness :
  fst (aes_custom.decrypt standin_decipher pkcs7_unpad example_aes
         (test_bytes ++ repeat 12 12) key_00_0f 0 1)
  = Ok test_bytes.
Proof.
  apply (decrypt_inverts_encrypt_across_parameters standin_cipher standin_decipher
           pkcs7_pad pkcs7_unpad (aes_custom.init None) example_aes test_bytes
           key_00_0f (test_bytes ++ repeat 12 12) 0 1 0 1).
  - apply standin_decipher_inverts.
  - vm_compute. reflexivity.
  - reflexivity.
  - apply key_00_0f_bytes.
  - vm_compute. reflexivity.
Defined.

(** ** The recurrence behind every expanded schedule *)

Lemma comprehension_length {A B : Type} (f : A -> outcome B) (l : list A) (s : list B) :
  comprehension f l = Ok s -> length s = length l.
Proof.
  revert s. induction l as [|x l IH]; cbn [comprehension]; intros s H.
  - now inversion H.
  - destruct (f x); cbn [bind] in H; [|discriminate H].
    destruct (comprehension f l) as [ys|]; cbn [bind] in H; [|discriminate H].
    inversion H. simpl. f_equal. now apply IH.
Qed.

(** A turn that returns has appended four elements. *)
Lemma expansion_step_shape (self : aes_custom.CustomAES) (expanded r : list Z) (i : nat) :
  aes_custom.expansion_step self expanded i = Ok r ->
  exists w, r = expanded ++ w /\ length w = 4%nat.
Proof.
  unfold aes_custom.expansion_step. intros H.
  destruct (if (i mod 4 =? 0)%nat then _ else _) as [temp|]; cbn [bind] in H;
    [|discriminate H].
  destruct (comprehension _ (seq 0 4)) as [w|] eqn:E; cbn [bind] in H; [|discriminate H].
  inversion H. exists w. split; [reflexivity|].
  now apply comprehension_length in E.
Qed.

Lemma expansion_loop_prefix (self : aes_custom.CustomAES) (l : list nat) :
  forall expanded out,
    for_each (aes_custom.expansion_step self) l expanded = Ok out ->
    exists rest, out = expanded ++ rest.
Proof.
  induction l as [|i l IH]; intros expanded out H; cbn [for_each] in H.
  - inversion H. exists []. now rewrite app_nil_r.
  - destruct (aes_custom.expansion_step self expanded i) as [r|] eqn:E;
      cbn [bind] in H; [|discriminate H].
    apply expansion_step_shape in E. destruct E as (w & -> & _).
    destruct (IH _ _ H) as (rest & ->).
    exists (w ++ rest). now rewrite app_assoc.
Qed.

Lemma word_at_app (l r : list Z) (i : nat) :
  ((i + 1) * 4 <= length l)%nat -> word_at (l ++ r) i = word_at l i.
Proof.
  intros H. unfold word_at, py_slice.
  rewrite skipn_app, firstn_app, length_skipn.
  replace ((i + 1) * 4 - i * 4 - (length l - i * 4))%nat with 0%nat by lia.
  simpl firstn at 2. apply app_nil_r.
Qed.

Lemma word_at_end (l w : list Z) (i : nat) :
  length l = (4 * i)%nat -> length w = 4%nat -> word_at (l ++ w) i = w.
Proof.
  intros Hl Hw. unfold word_at, py_slice.
  rewrite skipn_app, skipn_all2 by lia.
  replace (i * 4 - length l)%nat with 0%nat by lia.
  cbn [skipn app]. apply firstn_all2. lia.
Qed.

Lemma word_at_length (l : list Z) (i : nat) :
  ((i + 1) * 4 <= length l)%nat -> length (word_at l i) = 4%nat.
Proof.
  intros H. unfold word_at. rewrite length_slice by exact H. lia.
Qed.

(** Away from a round boundary a turn appends [w[i-1] xor w[i-4]]. *)
Lemma expansion_step_plain (self : aes_custom.CustomAES) (expanded : list Z) (i : nat) :
  (4 <= i)%nat -> (i mod 4 <> 0)%nat -> (4 * i <= length expanded)%nat ->
  aes_custom.expansion_step self expanded i
  = Ok (expanded ++ xor_words (word_at expanded (i - 1)) (word_at expanded (i - 4))).
Proof.
  intros Hi Hm Hlen. unfold aes_custom.expansion_step.
  rewrite (proj2 (Nat.eqb_neq (i mod 4) 0) Hm). cbn [bind].
  pose proof (word_at_length expanded (i - 1) ltac:(lia)) as Lt.
  pose proof (word_at_length expanded (i - 4) ltac:(lia)) as Lp.
  unfold word_at in *.
  replace ((i - 1 + 1) * 4)%nat with (i * 4)%nat in * by lia.
  replace ((i - 4 + 1) * 4)%nat with ((i - 3) * 4)%nat in * by lia.
  set (temp := py_slice expanded ((i - 1) * 4) (i * 4)) in *.
  set (prev := py_slice expanded ((i - 4) * 4) ((i - 3) * 4)) in *.
  four_elements temp Lt. four_elements prev Lp.
  rewrite new_word_of_words. reflexivity.
Qed.

Lemma expansion_loop_chains (self : aes_custom.CustomAES) (n : nat) :
  forall (i : nat) (expanded out : list Z),
    (4 <= i)%nat -> length expanded = (4 * i)%nat ->
    for_each (aes_custom.expansion_step self) (seq i n) expanded = Ok out ->
    forall k, (i <= k < i + n)%nat -> (k mod 4 <> 0)%nat ->
      word_at out k = xor_words (word_at out (k - 1)) (word_at out (k - 4)).
Proof.
  induction n as [|n IH]; intros i expanded out Hi Hlen H k Hk Hm; [lia|].
  cbn [seq for_each] in H.
  destruct (aes_custom.expansion_step self expanded i) as [r|] eqn:E;
    cbn [bind] in H; [|discriminate H].
  destruct (expansion_step_shape _ _ _ _ E) as (w & -> & Lw).
  destruct (Nat.eq_dec k i) as [->|Hne].
  - rewrite expansion_step_plain in E by lia.
    inversion E as [E']. apply app_inv_head in E'.
    destruct (expansion_loop_prefix _ _ _ _ H) as (rest & ->).
    rewrite (word_at_app (expanded ++ w) rest i) by (rewrite length_app; lia).
    rewrite (word_at_end expanded w i Hlen Lw).
    rewrite <- app_assoc.
    rewrite !(word_at_app expanded (w ++ rest)) by lia.
    now symmetry.
  - apply (IH (S i) (expanded ++ w) out); try lia; [|exact H].
    rewrite length_app. lia.
Qed.

Lemma py_bytes_ok (l out : list Z) : py_bytes l = Ok out -> out = l.
Proof.
  unfold py_bytes. destruct (forallb is_byteb l); intros H; now inversion H.
Qed.

(** Whatever the parameters, every word of a returned schedule that does
    not open a round ([i mod 4 <> 0], [4 <= i < 44]) is the xor of the word
    before it and the word four places back; the parameters act on the
    round-opening words only. *)
Theorem schedule_words_are_chained
        (self : aes_custom.CustomAES) (key out : list Z) (i : nat) :
  length key = 16%nat ->
  aes_custom.custom_key_expansion self key = Ok out ->
  (4 <= i < 44)%nat -> (i mod 4 <> 0)%nat ->
  word_at out i = xor_words (word_at out (i - 1)) (word_at out (i - 4)).
Proof.
  intros Hlen H Hi Hm. unfold aes_custom.custom_key_expansion in H.
  destruct (for_each _ (seq 4 40) key) as [expanded|] eqn:E; cbn [bind] in H;
    [|discriminate H].
  apply py_bytes_ok in H. subst out.
  apply (expansion_loop_chains self 40 4 key expanded); try lia. exact E.
Qed.

Lemma schedule_words_are_chained_witness :
  word_at fips197.published_expansion_00_0f 5
  = xor_words (word_at fips197.published_expansion_00_0f 4)
              (word_at fips197.published_expansion_00_0f 1).
Proof.
  apply (schedule_words_are_chained (aes_custom.init None) key_00_0f
           fips197.published_expansion_00_0f 5).
  - reflexivity.
  - vm_compute. reflexivity.
  - lia.
  - simpl. lia.
Defined.

(** Every turn of a loop that returned can be replayed on the prefix of the
    result it started from. *)
Lemma expansion_loop_turns (self : aes_custom.CustomAES) (n : nat) :
  forall (i : nat) (expanded out : list Z),
    length expanded = (4 * i)%nat ->
    for_each (aes_custom.expansion_step self) (seq i n) expanded = Ok out ->
    forall k, (i <= k < i + n)%nat ->
      exists pre w rest,
        out = pre ++ w ++ rest /\ length pre = (4 * k)%nat /\ length w = 4%nat /\
        aes_custom.expansion_step self pre k = Ok (pre ++ w).
Proof.
  induction n as [|n IH]; intros i expanded out Hlen H k Hk; [lia|].
  cbn [seq for_each] in H.
  destruct (aes_custom.expansion_step self expanded i) as [r|] eqn:E;
    cbn [bind] in H; [|discriminate H].
  destruct (expansion_step_shape _ _ _ _ E) as (w & -> & Lw).
  destruct (Nat.eq_dec k i) as [->|Hne].
  - destruct (expansion_loop_prefix _ _ _ _ H) as (rest & ->).
    exists expanded, w, rest. rewrite <- app_assoc. auto.
  - apply (IH (S i) (expanded ++ w) out); try lia; [|exact H].
    rewrite length_app. lia.
Qed.

(** The word that opens round [i / 4] is made from the word before it as
    the code says: rotated by the round's rotation, substituted through the
    S-box, its first byte xored with the effective round constant, then
    xored with the word four places back. *)
Theorem round_opening_word
        (self : aes_custom.CustomAES) (key out : list Z) (i : nat) :
  length key = 16%nat ->
  aes_custom.custom_key_expansion self key = Ok out ->
  (4 <= i < 44)%nat -> (i mod 4 = 0)%nat ->
  let round_num := (i / 4 - 1)%nat in
  exists s t,
    aes_custom.sub_word
      (aes_custom.rot_word (word_at out (i - 1))
                           (nth round_num (aes_custom.rotations self) 1)) = Ok s /\
    aes_custom.xor_first
      s (rcon_value round_num (nth round_num (aes_custom.rcon_multipliers self) 1)) = Ok t /\
    word_at out i = xor_words t (word_at out (i - 4)).
Proof.
  intros Hlen H Hi Hm. cbv zeta. unfold aes_custom.custom_key_expansion in H.
  destruct (for_each _ (seq 4 40) key) as [expanded|] eqn:E; cbn [bind] in H;
    [|discriminate H].
  apply py_bytes_ok in H. subst out.
  destruct (expansion_loop_turns self 40 4 key expanded ltac:(lia) E i ltac:(lia))
    as (pre & w & rest & -> & Lpre & Lw & Estep).
  rewrite (word_at_app pre (w ++ rest) (i - 1)) by lia.
  rewrite (word_at_app pre (w ++ rest) (i - 4)) by lia.
  rewrite app_assoc.
  rewrite (word_at_app (pre ++ w) rest i) by (rewrite length_app; lia).
  rewrite (word_at_end pre w i Lpre Lw).
  unfold aes_custom.expansion_step in Estep.
  rewrite (proj2 (Nat.eqb_eq (i mod 4) 0) Hm) in Estep.
  rewrite !param_or_default_nth in Estep. cbn [bind] in Estep.
  assert (Hr : (i / 4 - 1 < 10)%nat).
  { assert (i / 4 < 11)%nat by (apply Nat.Div0.div_lt_upper_bound; lia). lia. }
  pose proof (word_at_length pre (i - 1) ltac:(lia)) as Lt.
  pose proof (word_at_length pre (i - 4) ltac:(lia)) as Lp.
  unfold word_at in *.
  replace ((i - 1 + 1) * 4)%nat with (i * 4)%nat in * by lia.
  replace ((i - 4 + 1) * 4)%nat with ((i - 3) * 4)%nat in * by lia.
  destruct (aes_custom.sub_word _) as [s|] eqn:Es; cbn [bind] in Estep;
    [|discriminate Estep].
  rewrite (py_get_nth aes_custom.RCON _ 0) in Estep by exact Hr. cbn [bind] in Estep.
  fold (rcon_value (i / 4 - 1) (nth (i / 4 - 1) (aes_custom.rcon_multipliers self) 1))
    in Estep.
  destruct (aes_custom.xor_first s _) as [t|] eqn:Et; cbn [bind] in Estep;
    [|discriminate Estep].
  exists s, t. split; [first [exact Es|reflexivity]|].
  split; [first [exact Et|reflexivity]|].
  assert (Ls : length s = 4%nat).
  { apply sub_word_result in Es. now rewrite rot_word_length, Lt in Es. }
  assert (Ltt : length t = 4%nat).
  { destruct s as [|s0 s']; [discriminate Et|]. inversion Et; subst. exact Ls. }
  set (prev := py_slice pre ((i - 4) * 4) ((i - 3) * 4)) in *.
  four_elements t Ltt. four_elements prev Lp.
  rewrite new_word_of_words in Estep. cbn [bind] in Estep.
  inversion Estep as [E']. apply app_inv_head in E'. now subst w.
Qed.

Lemma round_opening_word_witness :
  exists s t,
    aes_custom.sub_word
      (aes_custom.rot_word (word_at fips197.published_expansion_00_0f 3) 1) = Ok s /\
    aes_custom.xor_first s (rcon_value 0 1) = Ok t /\
    word_at fips197.published_expansion_00_0f 4
    = xor_words t (word_at fips197.published_expansion_00_0f 0).
Proof.
  apply (round_opening_word (aes_custom.init None) key_00_0f
           fips197.published_expansion_00_0f 4).
  - reflexivity.
  - vm_compute. reflexivity.
  - lia.
  - reflexivity.
Defined.

(** * Further properties of [ga_optimizer.py] *)

(** ** [initialize_population] *)

(** The initial population always has [max(1, population_size)] members:
    the neutral baseline first, unevaluated, then random valid chromosomes.
    With [population_size = 0] the baseline alone is returned. *)
Theorem initial_population_has_baseline_first (tape : nat -> Z) (self : GeneticAlgorithm) :
  always (initialize_population tape self)
         (fun p => length p = Nat.max 1 (population_size self) /\
                   nth_error p 0 = Some (mkChromosome (repeat 1 10) (repeat 1 10) 0 []) /\
                   Forall valid_chromosome p).
Proof.
  eapply always_weaken; [apply initialize_population_always|].
  intros p (Vp & Lp & Hp). repeat split; auto. lia.
Qed.

(** ** [selection_tournament] *)

Lemma remove_nth_perm {A : Type} (l : list A) (j : nat) (d : A) :
  (j < length l)%nat -> Permutation (nth j l d :: remove_nth l j) l.
Proof.
  revert j. induction l as [|x l IH]; intros [|j] H; simpl in *; try lia.
  - reflexivity.
  - rewrite perm_swap. constructor. apply IH. lia.
Qed.

Lemma sample_loop_distinct (tape : nat -> Z) {A : Type} (k : nat) :
  forall pool : list A,
    (k <= length pool)%nat ->
    always (sample_loop tape pool k)
           (fun s => length s = k /\ exists rest, Permutation (s ++ rest) pool).
Proof.
  induction k as [|k IH]; intros pool Hk; cbn [sample_loop].
  - apply always_ret. split; [reflexivity|]. exists pool. reflexivity.
  - destruct pool as [|x0 pool]; [simpl in Hk; lia|].
    intros e. unfold rbind at 1. cbn [next_draw].
    set (d := tape (rng_pos e)).
    set (j := Z.to_nat (d mod Z.of_nat (length (x0 :: pool)))).
    assert (Hj : (j < length (x0 :: pool))%nat).
    { pose proof (Z.mod_pos_bound d (Z.of_nat (length (x0 :: pool)))
                                  ltac:(simpl length; lia)). unfold j. lia. }
    destruct (IH (remove_nth (x0 :: pool) j)
                 ltac:(rewrite remove_nth_length by exact Hj; simpl in *; lia)
                 (mkEnv (S (rng_pos e)) (eval_pos e)))
      as (s & e1 & E & Ls & rest & Hperm).
    exists (nth j (x0 :: pool) x0 :: s), e1.
    unfold rbind. rewrite E. split; [reflexivity|]. split; [simpl; now rewrite Ls|].
    exists rest. cbn [app]. rewrite Hperm. now apply remove_nth_perm.
Qed.

Lemma fold_max_is_fittest (r : list KeyScheduleChromosome) :
  forall x : KeyScheduleChromosome,
    let w := fold_left (fun best c => if Qltb (fitness best) (fitness c) then c else best)
                       r x in
    Forall (fun c => (fitness c <= fitness w)%Q) (x :: r).
Proof.
  induction r as [|y r IH]; intros x; cbn [fold_left].
  - constructor; [apply Qle_refl|constructor].
  - cbv zeta in *. destruct (Qltb (fitness x) (fitness y)) eqn:E.
    + specialize (IH y). inversion IH as [|? ? Hy Hr]; subst.
      constructor; [|now constructor].
      eapply Qle_trans; [apply Qlt_le_weak, Qltb_true, E|exact Hy].
    + specialize (IH x). inversion IH as [|? ? Hx Hr]; subst.
      constructor; [exact Hx|]. constructor; [|exact Hr].
      eapply Qle_trans; [apply Qltb_false, E|exact Hx].
Qed.

Lemma tournament_small (tape : nat -> Z) (population : list KeyScheduleChromosome)
      (k : nat) (e : env) :
  (length population < k)%nat ->
  selection_tournament tape population k e = (Raise ValueError, e).
Proof.
  intros H. unfold selection_tournament, random_sample, rbind.
  rewrite (proj2 (Nat.ltb_lt _ _) H). reflexivity.
Qed.

(** A tournament over fewer chromosomes than its size raises [ValueError]
    without drawing; over at least three it returns a chromosome of the
    population that is at least as fit as two others standing at other
    positions, so a chromosome strictly less fit than all the others never
    wins. *)
Theorem tournament_winner_beats_two_others
        (tape : nat -> Z) (population : list KeyScheduleChromosome) :
  (forall k e, (length population < k)%nat ->
     selection_tournament tape population k e = (Raise ValueError, e)) /\
  ((3 <= length population)%nat ->
   always (selection_tournament tape population 3)
          (fun c => exists a b rest,
             Permutation (c :: a :: b :: rest) population /\
             (fitness a <= fitness c)%Q /\ (fitness b <= fitness c)%Q)).
Proof.
  split.
  - intros k e H. now apply tournament_small.
  - intros H. unfold selection_tournament, random_sample.
    rewrite (proj2 (Nat.ltb_ge _ _) H).
    eapply always_bind; [apply sample_loop_distinct, H|].
    intros s (Ls & rest & Hperm).
    destruct s as [|x r]; [discriminate Ls|].
    apply always_ret.
    set (w := fold_left _ r x).
    pose proof (fold_max_In r x) as Hin. fold w in Hin.
    pose proof (fold_max_is_fittest r x) as Hmax. cbv zeta in Hmax. fold w in Hmax.
    destruct (in_split _ _ Hin) as (l1 & l2 & Hs).
    assert (Hp : Permutation (w :: l1 ++ l2) (x :: r))
      by (rewrite Hs; apply Permutation_middle).
    assert (L2 : length (l1 ++ l2) = 2%nat).
    { apply Permutation_length in Hp. simpl in Hp, Ls. lia. }
    destruct (l1 ++ l2) as [|a [|b [|? ?]]] eqn:El; try discriminate L2.
    exists a, b, rest. split.
    + rewrite <- Hperm.
      change (w :: a :: b :: rest) with ((w :: [a; b]) ++ rest).
      now rewrite Hp.
    + rewrite Forall_forall in Hmax.
      split; apply Hmax; apply (Permutation_in _ Hp); simpl; auto.
Qed.

Lemma tournament_winner_beats_two_others_witness :
  always (selection_tournament demo_tape [baseline; all_twos; all_threes] 3)
         (fun c => exists a b rest,
            Permutation (c :: a :: b :: rest) [baseline; all_twos; all_threes] /\
            (fitness a <= fitness c)%Q /\ (fitness b <= fitness c)%Q).
Proof.
  apply (proj2 (tournament_winner_beats_two_others demo_tape
                  [baseline; all_twos; all_threes])).
  simpl. lia.
Defined.

(** ** [mutate] *)

Lemma always_rfor_seq {S : Type} (body : S -> nat -> R S) (I : nat -> S -> Prop) (n : nat) :
  forall (a : nat) (acc : S),
    I a acc ->
    (forall k s, (a <= k < a + n)%nat -> I k s -> always (body s k) (I (Datatypes.S k))) ->
    always (rfor body (seq a n) acc) (I (a + n)%nat).
Proof.
  induction n as [|n IH]; intros a acc Hacc Hbody; cbn [seq rfor].
  - apply always_ret. now rewrite Nat.add_0_r.
  - eapply always_bind; [apply Hbody; [lia|exact Hacc]|].
    intros s Hs. replace (a + Datatypes.S n)%nat with (Datatypes.S a + n)%nat by lia.
    apply IH; [exact Hs|]. intros k s' Hk. apply Hbody. lia.
Qed.

Lemma list_set_nth {A : Type} (l : list A) (i j : nat) (v d : A) :
  (i < length l)%nat ->
  nth j (list_set l i v) d = if (j =? i)%nat then v else nth j l d.
Proof.
  revert i j. induction l as [|x l IH]; intros [|i] [|j] H; simpl in *; try lia; auto.
  apply IH. lia.
Qed.

Lemma chromosome_eta (c : KeyScheduleChromosome) :
  mkChromosome (rotations c) (rcon_multipliers c) (fitness c) (metrics c) = c.
Proof. now destruct c. Qed.

(** With [mutation_rate = 0] no draw changes anything: [mutate] returns
    the chromosome it was given. *)
Theorem mutation_rate_zero_is_identity
        (tape : nat -> Z) (self : GeneticAlgorithm) (c : KeyScheduleChromosome) :
  (mutation_rate self == 0)%Q ->
  always (mutate tape self c) (fun c' => c' = c).
Proof.
  intros Hrate. unfold mutate.
  eapply always_bind; [apply mutation_rate_zero_changes_nothing, Hrate|]. intros rot ->.
  eapply always_bind; [apply mutation_rate_zero_changes_nothing, Hrate|]. intros rc ->.
  apply always_ret. apply chromosome_eta.
Qed.

Lemma mutation_rate_zero_is_identity_witness :
  always (mutate demo_tape (init 4 (8 # 10) 0 3 1 (repeat 0 16)) all_twos)
         (fun c' => c' = all_twos).
Proof. apply mutation_rate_zero_is_identity. reflexivity. Defined.

Lemma mutate_genes_length (tape : nat -> Z) (self : GeneticAlgorithm) (genes : list Z) :
  always (mutate_genes tape self genes) (fun l => length l = length genes).
Proof.
  unfold mutate_genes.
  apply (always_rfor _ (fun l => length l = length genes)); [|reflexivity].
  intros l i _ Ll.
  eapply always_bind; [apply random_random_unit|]. intros u _.
  destruct (Qltb u (mutation_rate self)); [|now apply always_ret].
  eapply always_bind; [apply (random_randint_range tape 1 3); lia|].
  intros g _. apply always_ret. now rewrite list_set_length.
Qed.

(** Mutation changes genes only: the two lists keep their lengths, and the
    fitness and the metrics stay those measured before the change, whatever
    the chromosome and the rate. *)
Theorem mutate_keeps_stale_fitness
        (tape : nat -> Z) (self : GeneticAlgorithm) (c : KeyScheduleChromosome) :
  always (mutate tape self c)
         (fun c' => fitness c' = fitness c /\ metrics c' = metrics c /\
                    length (rotations c') = length (rotations c) /\
                    length (rcon_multipliers c') = length (rcon_multipliers c)).
Proof.
  unfold mutate.
  eapply always_bind; [apply mutate_genes_length|]. intros rot Lr.
  eapply always_bind; [apply mutate_genes_length|]. intros rc Lc.
  apply always_ret. cbn. auto.
Qed.

Lemma mutate_genes_rate_one (tape : nat -> Z) (self : GeneticAlgorithm) (genes : list Z) :
  (1 <= mutation_rate self)%Q ->
  always (mutate_genes tape self genes)
         (fun l => length l = length genes /\ Forall gene l).
Proof.
  intros Hrate. unfold mutate_genes.
  eapply always_weaken.
  - apply (always_rfor_seq _
             (fun k l => length l = length genes /\
                         forall j, (j < k)%nat -> gene (nth j l 0))).
    + split; [reflexivity|]. intros j Hj. lia.
    + intros k l Hk [Ll Gl].
      eapply always_bind; [apply random_random_unit|]. intros u [_ Hu].
      replace (Qltb u (mutation_rate self)) with true.
      * eapply always_bind; [apply (random_randint_range tape 1 3); lia|].
        intros g Hg. apply always_ret. split; [now rewrite list_set_length|].
        intros j Hj. rewrite list_set_nth by lia.
        destruct (Nat.eqb_spec j k); [exact Hg|]. apply Gl. lia.
      * symmetry. unfold Qltb. apply negb_true_iff.
        destruct (Qle_bool _ _) eqn:E; [|reflexivity].
        apply Qle_bool_iff in E. exfalso.
        apply (Qlt_irrefl u). eapply Qlt_le_trans; [exact Hu|].
        eapply Qle_trans; eassumption.
  - intros l [Ll Gl]. split; [exact Ll|].
    apply Forall_forall. intros g Hg.
    destruct (In_nth _ _ 0 Hg) as (j & Hj & <-). apply Gl. simpl. lia.
Qed.

(** With [mutation_rate >= 1] every gene is redrawn: the result has all
    its genes in 1..3 even when the chromosome given did not. *)
Theorem mutation_rate_one_redraws_every_gene
        (tape : nat -> Z) (self : GeneticAlgorithm) (c : KeyScheduleChromosome) :
  (1 <= mutation_rate self)%Q ->
  always (mutate tape self c)
         (fun c' => Forall gene (rotations c') /\ Forall gene (rcon_multipliers c') /\
                    length (rotations c') = length (rotations c) /\
                    length (rcon_multipliers c') = length (rcon_multipliers c)).
Proof.
  intros Hrate. unfold mutate.
  eapply always_bind; [apply mutate_genes_rate_one, Hrate|]. intros rot [Lr Gr].
  eapply always_bind; [apply mutate_genes_rate_one, Hrate|]. intros rc [Lc Gc].
  apply always_ret. cbn. auto.
Qed.

Lemma mutation_rate_one_redraws_every_gene_witness :
  always (mutate demo_tape (init 4 (8 # 10) 1 3 1 (repeat 0 16))
                 (mkChromosome [0; 7; -2] [9] 0 []))
         (fun c' => Forall gene (rotations c') /\ Forall gene (rcon_multipliers c') /\
                    length (rotations c') = 3%nat /\
                    length (rcon_multipliers c') = 1%nat).
Proof.
  apply (mutation_rate_one_redraws_every_gene demo_tape
           (init 4 (8 # 10) 1 3 1 (repeat 0 16)) (mkChromosome [0; 7; -2] [9] 0 [])).
  unfold Qle. simpl. lia.
Defined.

(** ** [crossover_single_point] *)

Lemma nth_cut (p i : nat) (l1 l2 : list Z) :
  length l1 = length l2 ->
  nth i (firstn p l1 ++ skipn p l2) 0 = if (i <? p)%nat then nth i l1 0 else nth i l2 0.
Proof.
  intros Hlen.
  destruct (Nat.ltb_spec i p) as [Hlt|Hge].
  - destruct (Nat.lt_ge_cases i (length l1)) as [Hi|Hi].
    + rewrite app_nth1 by (rewrite length_firstn; lia).
      rewrite nth_firstn. now rewrite (proj2 (Nat.ltb_lt i p) Hlt).
    + rewrite (nth_overflow l1) by lia.
      apply nth_overflow. rewrite length_app, length_firstn, length_skipn. lia.
  - destruct (Nat.lt_ge_cases p (length l1)) as [Hp|Hp].
    + rewrite app_nth2 by (rewrite length_firstn; lia).
      rewrite length_firstn, nth_skipn. f_equal. lia.
    + rewrite (nth_overflow l2) by lia.
      apply nth_overflow. rewrite length_app, length_firstn, length_skipn. lia.
Qed.

(** Crossover never invents a gene.  Whatever the rate and the draws, at
    every position the two children hold the two parents' genes of that
    position, in the same or in the opposite order, for the rotations and
    for the multipliers; and either both children are the parents
    themselves or both are new chromosomes with fitness 0 and no metrics. *)
Theorem crossover_conserves_genes
        (tape : nat -> Z) (self : GeneticAlgorithm)
        (p1 p2 : KeyScheduleChromosome) (e : env) :
  length (rotations p1) = length (rotations p2) ->
  length (rcon_multipliers p1) = length (rcon_multipliers p2) ->
  exists c1 c2 e',
    crossover_single_point tape self p1 p2 e = (Ok (c1, c2), e') /\
    (forall i,
       (nth i (rotations c1) 0 = nth i (rotations p1) 0 /\
        nth i (rotations c2) 0 = nth i (rotations p2) 0) \/
       (nth i (rotations c1) 0 = nth i (rotations p2) 0 /\
        nth i (rotations c2) 0 = nth i (rotations p1) 0)) /\
    (forall i,
       (nth i (rcon_multipliers c1) 0 = nth i (rcon_multipliers p1) 0 /\
        nth i (rcon_multipliers c2) 0 = nth i (rcon_multipliers p2) 0) \/
       (nth i (rcon_multipliers c1) 0 = nth i (rcon_multipliers p2) 0 /\
        nth i (rcon_multipliers c2) 0 = nth i (rcon_multipliers p1) 0)) /\
    ((c1 = p1 /\ c2 = p2) \/
     (fitness c1 == 0 /\ metrics c1 = [] /\ fitness c2 == 0 /\ metrics c2 = [])%Q).
Proof.
  intros L L'. rewrite crossover_unfold.
  destruct (Qltb _ _).
  - do 3 eexists. split; [reflexivity|]. repeat split; auto.
  - cbv zeta. set (point := Z.to_nat _).
    do 3 eexists. split; [reflexivity|]. cbn [rotations rcon_multipliers fitness metrics].
    split; [|split].
    + intros i. rewrite !nth_cut by congruence.
      destruct (i <? point)%nat; auto.
    + intros i. rewrite !nth_cut by congruence.
      destruct (i <? point)%nat; auto.
    + right. repeat split; reflexivity.
Qed.

Lemma crossover_conserves_genes_witness :
  exists c1 c2 e',
    crossover_single_point demo_tape ga_with_elitism all_twos all_threes fresh_env
    = (Ok (c1, c2), e') /\
    (forall i,
       (nth i (rotations c1) 0 = nth i (rotations all_twos) 0 /\
        nth i (rotations c2) 0 = nth i (rotations all_threes) 0) \/
       (nth i (rotations c1) 0 = nth i (rotations all_threes) 0 /\
        nth i (rotations c2) 0 = nth i (rotations all_twos) 0)).
Proof.
  destruct (crossover_conserves_genes demo_tape ga_with_elitism all_twos all_threes
              fresh_env eq_refl eq_refl) as (c1 & c2 & e' & E & H & _).
  exists c1, c2, e'. auto.
Defined.

(** ** The population step *)

Lemma post_true {A : Type} (m : R A) : post m (fun _ => True).
Proof. intros e a e' _. exact I. Qed.

Lemma offspring_loop_extends (tape : nat -> Z) (self : GeneticAlgorithm)
      (population : list KeyScheduleChromosome) (fuel : nat) :
  forall next_generation,
    post (offspring_loop tape fuel self population next_generation)
         (fun r => exists ext, r = next_generation ++ ext).
Proof.
  induction fuel as [|fuel IH]; intros ng; cbn [offspring_loop].
  - destruct (length ng <? population_size self)%nat;
      apply post_ret; exists []; now rewrite app_nil_r.
  - destruct (length ng <? population_size self)%nat;
      [|apply post_ret; exists []; now rewrite app_nil_r].
    eapply post_bind; [apply post_true|]. intros parent1 _.
    eapply post_bind; [apply post_true|]. intros parent2 _.
    eapply post_bind; [apply post_true|]. intros children _.
    eapply post_bind; [apply post_true|]. intros c1 _.
    eapply post_bind; [apply post_true|]. intros c2 _.
    eapply post_weaken; [apply IH|].
    intros r [ext ->].
    destruct (length (ng ++ [c1]) <? population_size self)%nat;
      rewrite <- !app_assoc; eauto.
Qed.

(** The next population starts with the first [elitism_count] chromosomes
    of the current one, unchanged: same genes, same fitness (they are not
    measured again), same order.  When [elitism_count] is at least the
    population size nothing else is added: the step returns the population
    it was given without a draw or a measurement. *)
Theorem next_population_keeps_elite
        (tape : nat -> Z) (probe : nat -> KeyScheduleChromosome -> measurement)
        (self : GeneticAlgorithm) (population : list KeyScheduleChromosome) :
  post (next_population tape probe self population)
       (fun r => exists rest, r = firstn (elitism_count self) population ++ rest) /\
  (length population = population_size self ->
   (population_size self <= elitism_count self)%nat ->
   forall e, next_population tape probe self population e = (Ok population, e)).
Proof.
  split.
  - unfold next_population.
    eapply post_bind; [apply offspring_loop_extends|].
    intros ng [ext ->].
    eapply post_bind; [apply post_true|]. intros evaluated _.
    apply post_ret.
    set (elite := firstn (elitism_count self) population).
    assert (Le : (length elite <= elitism_count self)%nat)
      by (unfold elite; rewrite length_firstn; lia).
    rewrite firstn_app.
    rewrite (firstn_all2 (n := elitism_count self) elite) by exact Le.
    rewrite <- app_assoc. eauto.
  - intros Hlen Hec e. unfold next_population.
    rewrite (firstn_all2 (n := elitism_count self) population) by lia.
    assert (Hloop : forall fuel,
               offspring_loop tape fuel self population population = ret population).
    { intros fuel. destruct fuel; cbn [offspring_loop];
        rewrite (proj2 (Nat.ltb_ge _ _)) by lia; reflexivity. }
    rewrite Hloop, rbind_ret_l.
    rewrite (firstn_all2 (n := elitism_count self) population) by lia.
    rewrite skipn_all2 by lia. cbn [rmap]. rewrite rbind_ret_l.
    unfold ret. now rewrite app_nil_r.
Qed.

Lemma next_population_keeps_elite_witness :
  next_population demo_tape demo_probe (init 3 (8 # 10) (2 # 10) 5 3 (repeat 0 16))
                  [all_twos; all_threes; baseline] fresh_env
  = (Ok [all_twos; all_threes; baseline], fresh_env).
Proof.
  apply (proj2 (next_population_keeps_elite demo_tape demo_probe
                  (init 3 (8 # 10) (2 # 10) 5 3 (repeat 0 16))
                  [all_twos; all_threes; baseline])).
  - reflexivity.
  - simpl. lia.
Defined.

(** ** [evolve] and [get_evolution_history] *)


Section History.

Variable tape : nat -> Z.
Variable probe : nat -> KeyScheduleChromosome -> measurement.





End History.



Lemma evolve_with_elitism_returns_fittest_witness :
  exists c self' e',
    evolve demo_tape improving_probe ga_with_elitism fresh_env = (Ok c, self', e') /\
    forall g b, nth_error (best_fitness_history self') g = Some b -> (b <= fitness c)%Q.
Proof.
  destruct (evolve_always demo_tape improving_probe ga_with_elitism fresh_env
              improving_probe_speed ltac:(simpl; lia)) as (c & self' & e' & E & _).
  exists c, self', e'. split; [exact E|].
  apply (evolve_with_elitism_returns_fittest demo_tape improving_probe ga_with_elitism
           self' fresh_env e' c); [simpl; lia|reflexivity|exact E].
Defined.

(** At such a measurement the first evaluation of the initial population
    stops the run: nothing is recorded and no chromosome is stored. *)
Lemma evolve_stops_on_division_by_zero :
  fst (fst (evolve demo_tape degenerate_probe ga_with_elitism fresh_env))
  = Raise ZeroDivisionError /\
  snd (fst (evolve demo_tape degenerate_probe ga_with_elitism fresh_env))
  = ga_with_elitism.
Proof. split; vm_compute; reflexivity. Qed.

(** ** The optimiser and the cipher together *)

(** The cipher built from the baseline chromosome, slot 0 of every initial
    population, computes the key schedule of FIPS-197; the cipher built
    from any valid chromosome expands every 16-byte key to 176 bytes. *)
Theorem baseline_chromosome_is_standard_aes (key : list Z) :
  length key = 16%nat -> Forall is_byte key ->
  aes_custom.custom_key_expansion (aes_custom.init (Some (to_params baseline))) key
  = Ok (fips197.KeyExpansion key) /\
  forall c, valid_chromosome c ->
    exists out,
      aes_custom.custom_key_expansion (aes_custom.init (Some (to_params c))) key = Ok out /\
      length out = 176%nat /\ py_slice out 0 16 = key.
Proof.
  intros Hlen Hb. split.
  - change (aes_custom.init (Some (to_params baseline))) with (aes_custom.init None).
    unfold aes_custom.custom_key_expansion.
    rewrite (neutral_schedule key Hlen Hb). cbn [bind]. unfold py_bytes.
    rewrite forallb_is_byte by (now apply standard_schedule_bytes). reflexivity.
  - intros c _. now apply expansion_of_16_byte_key.
Qed.

Lemma baseline_chromosome_is_standard_aes_witness :
  aes_custom.custom_key_expansion (aes_custom.init (Some (to_params baseline))) key_00_0f
  = Ok (fips197.KeyExpansion key_00_0f).
Proof.
  exact (proj1 (baseline_chromosome_is_standard_aes key_00_0f eq_refl key_00_0f_bytes)).
Defined.

(** ** The snapshot kept by the generation loop *)

(** What the loop maintains in [best_chromosome]: nothing before the first
    generation, afterwards a chromosome whose fitness is one of the
    recorded bests and is at least every recorded best. *)
Lemma snapshot_step (self : GeneticAlgorithm) (top : KeyScheduleChromosome) (a : Q) :
  match best_chromosome self with
  | None => best_fitness_history self = []
  | Some b => In (fitness b) (best_fitness_history self) /\
              Forall (fun x => (x <= fitness b)%Q) (best_fitness_history self)
  end ->
  match best_chromosome (store_best (record_generation self (fitness top) a)
                                    (fitness top) top) with
  | None => False
  | Some b =>
      In (fitness b) (best_fitness_history self ++ [fitness top]) /\
      Forall (fun x => (x <= fitness b)%Q) (best_fitness_history self ++ [fitness top])
  end.
Proof.
  intros H. unfold store_best. cbn [record_generation best_chromosome].
  destruct (best_chromosome self) as [b|] eqn:Eb.
  - destruct H as [Hin Hall].
    destruct (Qltb (fitness b) (fitness top)) eqn:E; cbn [set_best_chromosome best_chromosome].
    + split; [apply in_or_app; right; now left|].
      apply Forall_app. split; [|constructor; [apply Qle_refl|constructor]].
      eapply Forall_impl; [|exact Hall]. intros x Hx. cbv beta in Hx.
      eapply Qle_trans; [exact Hx|]. apply Qlt_le_weak, Qltb_true, E.
    + cbn [record_generation best_chromosome]. try rewrite Eb.
      split; [apply in_or_app; now left|].
      apply Forall_app. split; [exact Hall|].
      constructor; [apply Qltb_false, E|constructor].
  - cbn [set_best_chromosome best_chromosome]. rewrite H. cbn [app].
    split; [now left|]. constructor; [apply Qle_refl|constructor].
Qed.

(** With or without an elite, at every exit of the generation loop (a
    normal one or an exception) [best_chromosome] holds a snapshot whose
    fitness is the highest best fitness recorded so far; it is this
    snapshot that the last statement of [evolve] replaces. *)
Theorem loop_snapshot_is_best_recorded
        (tape : nat -> Z) (probe : nat -> KeyScheduleChromosome -> measurement)
        (n : nat) (self : GeneticAlgorithm)
        (population : list KeyScheduleChromosome) (e : env) :
  best_chromosome self = None -> best_fitness_history self = [] ->
  let self' := snd (fst (generations tape probe n self population e)) in
  match best_chromosome self' with
  | None => best_fitness_history self' = []
  | Some b => In (fitness b) (best_fitness_history self') /\
              Forall (fun x => (x <= fitness b)%Q) (best_fitness_history self')
  end.
Proof.
  intros Hnone Hfresh. cbv zeta.
  assert (J : match best_chromosome self with
              | None => best_fitness_history self = []
              | Some b => In (fitness b) (best_fitness_history self) /\
                          Forall (fun x => (x <= fitness b)%Q) (best_fitness_history self)
              end) by (now rewrite Hnone).
  clear Hnone Hfresh. revert self population e J.
  induction n as [|n IH]; intros self population e J; cbn [generations]; [exact J|].
  destruct (sort_by_fitness population) as [|top rest]; [exact J|].
  set (self1 := store_best _ _ _).
  assert (J1 : match best_chromosome self1 with
               | None => best_fitness_history self1 = []
               | Some b => In (fitness b) (best_fitness_history self1) /\
                           Forall (fun x => (x <= fitness b)%Q) (best_fitness_history self1)
               end).
  { pose proof (snapshot_step self top (mean_fitness (top :: rest)) J) as S1.
    fold self1 in S1.
    destruct (recorded_config self (fitness top) (mean_fitness (top :: rest)) top)
      as (_ & _ & Hh). fold self1 in Hh. rewrite Hh.
    destruct (best_chromosome self1); [exact S1|contradiction]. }
  destruct (next_population tape probe self1 (top :: rest) e) as [[ng|x] e1];
    [apply IH|]; exact J1.
Qed.

Lemma loop_snapshot_is_best_recorded_witness :
  match best_chromosome
          (snd (fst (generations demo_tape demo_probe 2 ga_without_elitism
                                 [all_threes; baseline; all_twos] fresh_env))) with
  | None => best_fitness_history
              (snd (fst (generations demo_tape demo_probe 2 ga_without_elitism
                                     [all_threes; baseline; all_twos] fresh_env))) = []
  | Some b =>
      In (fitness b)
         (best_fitness_history
            (snd (fst (generations demo_tape demo_probe 2 ga_without_elitism
                                   [all_threes; baseline; all_twos] fresh_env)))) /\
      Forall (fun x => (x <= fitness b)%Q)
         (best_fitness_history
            (snd (fst (generations demo_tape demo_probe 2 ga_without_elitism
                                   [all_threes; baseline; all_twos] fresh_env))))
  end.
Proof.
  apply (loop_snapshot_is_best_recorded demo_tape demo_probe 2 ga_without_elitism
           [all_threes; baseline; all_twos] fresh_env); reflexivity.
Defined.
